(** * Blackjack engine (src/Blackjack/Blackjack.ts): a shallow embedding

    The class [BlackjackGame] is embedded as a record of its private fields
    and every method as a function in a small state-and-exception monad:
    a JavaScript [throw] leaves the fields as they were mutated so far, so
    a computation returns an outcome together with the state it reached.

    Numbers: [rank], [suit], [bet] and [numberOfDecks] are JavaScript
    numbers that the engine only ever uses as integers; they are [Z] here.
    Array indices and lengths are [nat].  An array read out of range yields
    [undefined] in JavaScript; this is [None] of stdpp's list lookup, and a
    property read on it is the [TypeError] the runtime raises. *)

From Stdlib Require Import ZArith QArith.
From stdpp Require Import base list strings.

Local Open Scope Z_scope.
Local Open Scope list_scope.
Local Open Scope nat_scope.

(** ** Types and enums *)

Record Card := mkCard { rank : Z; suit : Z }.

Inductive GamePhase := BETTING | PLAYER_TURN | DEALER_TURN | ROUND_OVER.
Inductive HandStatus := ACTIVE | STOOD | BUST | BLACKJACK.
Inductive HandResult := PENDING | PLAYER_WINS | DEALER_WINS | PUSH.
Inductive PlayerAction := HIT | STAND | DOUBLE_DOWN | SPLIT | INSURANCE.

#[global] Instance Card_eq_dec : EqDecision Card.
Proof. solve_decision. Defined.
#[global] Instance GamePhase_eq_dec : EqDecision GamePhase.
Proof. solve_decision. Defined.
#[global] Instance HandStatus_eq_dec : EqDecision HandStatus.
Proof. solve_decision. Defined.
#[global] Instance HandResult_eq_dec : EqDecision HandResult.
Proof. solve_decision. Defined.
#[global] Instance PlayerAction_eq_dec : EqDecision PlayerAction.
Proof. solve_decision. Defined.

Record HandState := mkHand {
  cards : list Card;
  bet : Z;
  status : HandStatus;
  result : HandResult
}.

Record GameOptions := mkOptions {
  numberOfDecks : Z;
  dealerHitsOnSoft17 : bool;
  blackjackPayout : Q
}.

Record HandValue := mkValue { value : Z; isSoft : bool }.

(** The snapshot type [GameState] of the source; its fields share names
    with the private fields of the class, hence the module. *)
Module GameState.
Record t := mk {
  deckSize : nat;
  playerHands : list HandState;
  dealerHand : list Card;
  activeHandIndex : nat;
  phase : GamePhase;
  dealerUpCardValue : Z;
  availableActions : list PlayerAction
}.
End GameState.

(** The private fields of [class BlackjackGame]. *)
Record BlackjackGame := mkGame {
  deck : list Card;
  playerHands : list HandState;
  dealerHand : list Card;
  activeHandIndex : nat;
  phase : GamePhase;
  options : GameOptions
}.

Definition defaultOptions : GameOptions :=
  {| numberOfDecks := 4; dealerHitsOnSoft17 := true; blackjackPayout := 3 # 2 |}.

(** ** Hand-value calculator: [BlackjackGame.getHandValue] *)

(** One iteration of [for (const card of hand)], on the pair
    [(sum, aceCount)]. *)
Definition addCard (acc : Z * nat) (card : Card) : Z * nat :=
  let '(sum, aceCount) := acc in
  if (10 <? rank card)%Z then ((sum + 10)%Z, aceCount)
  else if (rank card =? 1)%Z then ((sum + 11)%Z, S aceCount)
  else ((sum + rank card)%Z, aceCount).

(** [while (sum > 21 && aceCount > 0) { sum -= 10; aceCount--; }] *)
Fixpoint demote (sum : Z) (aceCount : nat) : Z * nat :=
  match aceCount with
  | O => (sum, O)
  | S n => if (21 <? sum)%Z then demote (sum - 10)%Z n else (sum, aceCount)
  end.

Definition getHandValue (hand : list Card) : HandValue :=
  match hand with
  | [] => {| value := 0; isSoft := false |}
  | _ =>
    let '(sum, aceCount) := fold_left addCard hand (0%Z, O) in
    let '(sum, aceCount) := demote sum aceCount in
    {| value := sum;
       isSoft := (0 <? aceCount) && (sum + 10 * Z.of_nat aceCount <=? 21)%Z |}
  end.

(** The flag as §4.1 of the specification words it: after the demotion
    loop, [isSoft = (remaining ace-counter > 0) AND (total <= 21)].  Only
    the last line differs from [getHandValue]. *)
Definition spec_handValue (hand : list Card) : HandValue :=
  match hand with
  | [] => {| value := 0; isSoft := false |}
  | _ =>
    let '(sum, aceCount) := fold_left addCard hand (0%Z, O) in
    let '(sum, aceCount) := demote sum aceCount in
    {| value := sum; isSoft := (0 <? aceCount) && (sum <=? 21)%Z |}
  end.

(** ** Errors, outcomes and the method monad *)

(** [Error msg] is [new Error(msg)]; [TypeError prop] is the runtime's
    "Cannot read properties of undefined (reading 'prop')". *)
Inductive exn := Error (msg : string) | TypeError (prop : string).

Inductive outcome (A : Type) := Ret (a : A) | Throw (e : exn).
Arguments Ret {A} a.
Arguments Throw {A} e.

(** A method body: it runs on the fields and yields an outcome and the
    fields as it left them (also when it throws). *)
Definition M (A : Type) : Type := BlackjackGame -> outcome A * BlackjackGame.

Definition ret {A} (a : A) : M A := fun g => (Ret a, g).
Definition throw {A} (e : exn) : M A := fun g => (Throw e, g).
Definition bind {A B} (m : M A) (k : A -> M B) : M B :=
  fun g => match m g with
           | (Ret a, g') => k a g'
           | (Throw e, g') => (Throw e, g')
           end.
Definition gets {A} (f : BlackjackGame -> A) : M A := fun g => (Ret (f g), g).
Definition modify (f : BlackjackGame -> BlackjackGame) : M unit :=
  fun g => (Ret tt, f g).
(** A read-only method. *)
Definition lift {A} (f : BlackjackGame -> outcome A) : M A := fun g => (f g, g).

Notation "'let*' x ':=' m 'in' k" := (bind m (fun x => k))
  (at level 10, x name, m at level 100, k at level 200).

(** Field assignments [this.f = v]. *)
Definition set_deck (v : list Card) (g : BlackjackGame) : BlackjackGame :=
  mkGame v (playerHands g) (dealerHand g) (activeHandIndex g) (phase g) (options g).
Definition set_playerHands (v : list HandState) (g : BlackjackGame) : BlackjackGame :=
  mkGame (deck g) v (dealerHand g) (activeHandIndex g) (phase g) (options g).
Definition set_dealerHand (v : list Card) (g : BlackjackGame) : BlackjackGame :=
  mkGame (deck g) (playerHands g) v (activeHandIndex g) (phase g) (options g).
Definition set_activeHandIndex (v : nat) (g : BlackjackGame) : BlackjackGame :=
  mkGame (deck g) (playerHands g) (dealerHand g) v (phase g) (options g).
Definition set_phase (v : GamePhase) (g : BlackjackGame) : BlackjackGame :=
  mkGame (deck g) (playerHands g) (dealerHand g) (activeHandIndex g) v (options g).

Definition set_cards (v : list Card) (h : HandState) : HandState :=
  mkHand v (bet h) (status h) (result h).
Definition set_bet (v : Z) (h : HandState) : HandState :=
  mkHand (cards h) v (status h) (result h).
Definition set_status (v : HandStatus) (h : HandState) : HandState :=
  mkHand (cards h) (bet h) v (result h).
Definition set_result (v : HandResult) (h : HandState) : HandState :=
  mkHand (cards h) (bet h) (status h) v.

(** ** Arrays *)

(** [array.pop()]: the last element and the array without it; [None] is
    the [undefined] an empty array yields. *)
Fixpoint array_pop {A} (l : list A) : option (A * list A) :=
  match l with
  | [] => None
  | x :: l' =>
    match array_pop l' with
    | None => Some (x, [])
    | Some (y, r) => Some (y, x :: r)
    end
  end.

(** [array.push(x)] *)
Definition array_push {A} (x : A) (l : list A) : list A := l ++ [x].

(** [array.splice(start, 0, x)]: insert [x] before position [start]. *)
Definition splice_insert {A} (start : nat) (x : A) (l : list A) : list A :=
  take start l ++ x :: drop start l.

(** [array.findIndex((x, index) => p x index)]; [None] stands for -1. *)
Fixpoint findIndex_from {A} (p : A -> nat -> bool) (l : list A) (index : nat)
  : option nat :=
  match l with
  | [] => None
  | x :: l' => if p x index then Some index else findIndex_from p l' (S index)
  end.
Definition findIndex {A} (p : A -> nat -> bool) (l : list A) : option nat :=
  findIndex_from p l 0.

(** [[a[i], a[j]] = [a[j], a[i]]] *)
Definition swap {A} (i j : nat) (l : list A) : list A :=
  match l !! i, l !! j with
  | Some x, Some y => <[j := x]> (<[i := y]> l)
  | _, _ => l
  end.

(** ** Shoe *)

(** [Math.random] is the only input the engine takes from outside a call's
    arguments.  A method that shuffles takes the sequence [rnd] of the
    values it will see: the [k]-th evaluation of
    [Math.floor(Math.random() * currentIndex)] is [rnd k mod currentIndex]. *)
Fixpoint shuffle_from {T} (rnd : nat -> nat) (k currentIndex : nat)
  (array : list T) : list T :=
  match currentIndex with
  | O => array
  | S ci =>
    let randomIndex := rnd k mod S ci in
    shuffle_from rnd (S k) ci (swap ci randomIndex array)
  end.
Definition shuffle {T} (rnd : nat -> nat) (array : list T) : list T :=
  shuffle_from rnd 0 (length array) array.

Definition ranks : list Z := map (fun i => (Z.of_nat i + 1)%Z) (seq 0 13).
Definition suits : list Z := [0; 1; 2; 3]%Z.

(** The two inner loops of [createNewDeck]: suits outside, ranks inside. *)
Definition oneDeck : list Card :=
  flat_map (fun suit => map (fun rank => mkCard rank suit) ranks) suits.

(** [for (let i = 0; i < numberOfDecks; i++)] runs [Z.to_nat numberOfDecks]
    times on an integer. *)
Definition createNewDeck (rnd : nat -> nat) (opts : GameOptions) : list Card :=
  shuffle rnd (concat (replicate (Z.to_nat (numberOfDecks opts)) oneDeck)).

Definition dealCard : M Card := fun g =>
  match array_pop (deck g) with
  | None => (Throw (Error "Deck is empty."), g)
  | Some (card, rest) => (Ret card, set_deck rest g)
  end.

(** ** Legal actions *)

Definition getActiveHand (g : BlackjackGame) : option HandState :=
  playerHands g !! activeHandIndex g.

Definition canSplit (hand : HandState) : bool :=
  match cards hand with
  | [card1; card2] =>
    let value1 := if (9 <? rank card1)%Z then 10%Z else rank card1 in
    let value2 := if (9 <? rank card2)%Z then 10%Z else rank card2 in
    (value1 =? value2)%Z
  | _ => false
  end.

Definition getAvailableActions (g : BlackjackGame) : outcome (list PlayerAction) :=
  match phase g with
  | PLAYER_TURN =>
    match getActiveHand g with
    | None => Throw (TypeError "cards")
    | Some activeHand =>
      let actions := [HIT; STAND] in
      let isFirstTurn := length (cards activeHand) =? 2 in
      let actions :=
        if isFirstTurn then array_push DOUBLE_DOWN actions else actions in
      let actions :=
        if isFirstTurn && canSplit activeHand
        then array_push SPLIT actions else actions in
      Ret actions
    end
  | _ => Ret []
  end.

Definition canPerformAction (action : PlayerAction) : M bool :=
  let* actions := lift getAvailableActions in
  ret (bool_decide (action ∈ actions)).

(** ** Settlement: [evaluateResults] *)

(** The body of [for (const hand of this.playerHands)]. *)
Definition settleHand (dealerValue : Z) (dealerHasBlackjack : bool)
  (hand : HandState) : HandState :=
  match status hand with
  | BUST => set_result DEALER_WINS hand
  | BLACKJACK =>
    set_result (if dealerHasBlackjack then PUSH else PLAYER_WINS) hand
  | _ =>
    let playerValue := value (getHandValue (cards hand)) in
    if (21 <? dealerValue)%Z || (dealerValue <? playerValue)%Z
    then set_result PLAYER_WINS hand
    else if (playerValue <? dealerValue)%Z
    then set_result DEALER_WINS hand
    else set_result PUSH hand
  end.

Definition evaluateResults : M unit :=
  let* dealer := gets dealerHand in
  let dealerValue := value (getHandValue dealer) in
  let dealerHasBlackjack := (dealerValue =? 21)%Z && (length dealer =? 2) in
  let* _ := modify (fun g =>
    set_playerHands (map (settleHand dealerValue dealerHasBlackjack) (playerHands g)) g) in
  modify (set_phase ROUND_OVER).

(** ** Dealer resolution: [resolveDealerTurn] *)

(** The guard of the [while] loop. *)
Definition dealerMustDraw (opts : GameOptions) (dealerValue : HandValue) : bool :=
  (value dealerValue <? 17)%Z
  || ((value dealerValue =? 17)%Z && isSoft dealerValue && dealerHitsOnSoft17 opts).

(** The [while] loop.  Every iteration pops the deck or throws on the empty
    deck, so [S (length deck)] units of fuel are never used up
    ([dealerLoop_fuel] below). *)
Fixpoint dealerLoop (fuel : nat) : M unit :=
  match fuel with
  | O => ret tt
  | S fuel' =>
    let* g := gets id in
    if dealerMustDraw (options g) (getHandValue (dealerHand g)) then
      let* card := dealCard in
      let* _ := modify (fun g => set_dealerHand (array_push card (dealerHand g)) g) in
      dealerLoop fuel'
    else ret tt
  end.

Definition resolveDealerTurn : M unit :=
  let* _ := modify (set_phase DEALER_TURN) in
  let* n := gets (fun g => length (deck g)) in
  let* _ := dealerLoop (S n) in
  evaluateResults.

(** ** Turn sequencer: [moveToNextHandOrResolve] *)

Definition moveToNextHandOrResolve : M unit :=
  let* g := gets id in
  let nextActiveHandIndex :=
    findIndex (fun hand index =>
                 (activeHandIndex g <? index) && bool_decide (status hand = ACTIVE))
              (playerHands g) in
  match nextActiveHandIndex with
  | Some i => modify (set_activeHandIndex i)
  | None => resolveDealerTurn
  end.

(** ** Player actions *)

(** A property read on the hand object [this.playerHands[i]]. *)
Definition readHand (i : nat) (prop : string) : M HandState := fun g =>
  match playerHands g !! i with
  | None => (Throw (TypeError prop), g)
  | Some hand => (Ret hand, g)
  end.

(** An in-place update of the hand object [this.playerHands[i]]. *)
Definition modifyHand (i : nat) (prop : string) (f : HandState -> HandState)
  : M unit := fun g =>
  match playerHands g !! i with
  | None => (Throw (TypeError prop), g)
  | Some hand => (Ret tt, set_playerHands (<[i := f hand]> (playerHands g)) g)
  end.

Definition pushCard (card : Card) (hand : HandState) : HandState :=
  set_cards (array_push card (cards hand)) hand.

(** In the action methods [const activeHand = this.getActiveHand()] binds
    the object at the current [activeHandIndex]; the object stays at that
    index while the method mutates it ([split] inserts behind it), so the
    index [i] stands for the reference. *)
Definition hit : M unit :=
  let* ok := canPerformAction HIT in
  if negb ok then ret tt else
  let* i := gets activeHandIndex in
  let* _ := readHand i "cards" in
  let* card := dealCard in
  let* _ := modifyHand i "cards" (pushCard card) in
  let* activeHand := readHand i "cards" in
  if (21 <? value (getHandValue (cards activeHand)))%Z then
    let* _ := modifyHand i "status" (set_status BUST) in
    moveToNextHandOrResolve
  else ret tt.

Definition stand : M unit :=
  let* ok := canPerformAction STAND in
  if negb ok then ret tt else
  let* i := gets activeHandIndex in
  let* _ := modifyHand i "status" (set_status STOOD) in
  moveToNextHandOrResolve.

Definition doubleDown : M unit :=
  let* ok := canPerformAction DOUBLE_DOWN in
  if negb ok then ret tt else
  let* i := gets activeHandIndex in
  let* _ := modifyHand i "bet" (fun h => set_bet (bet h * 2)%Z h) in
  let* card := dealCard in
  let* _ := modifyHand i "cards" (pushCard card) in
  let* activeHand := readHand i "cards" in
  let* _ := modifyHand i "status"
    (set_status (if (21 <? value (getHandValue (cards activeHand)))%Z
                 then BUST else STOOD)) in
  moveToNextHandOrResolve.

(** [activeHand.cards.pop()!] is defined whenever SPLIT was legal: the hand
    then has two cards ([split_pop_defined] below).  On an empty array
    [pop] yields [undefined], which a [list Card] cannot hold; that branch
    is never taken and stands as a [TypeError] here. *)
Definition split : M unit :=
  let* ok := canPerformAction SPLIT in
  if negb ok then ret tt else
  let* i := gets activeHandIndex in
  let* activeHand := readHand i "cards" in
  match array_pop (cards activeHand) with
  | None => throw (TypeError "rank")
  | Some (card, rest) =>
    let* _ := modifyHand i "cards" (set_cards rest) in
    let newHand := mkHand [card] (bet activeHand) ACTIVE PENDING in
    let* card1 := dealCard in
    let* _ := modifyHand i "cards" (pushCard card1) in
    let* card2 := dealCard in
    let newHand := pushCard card2 newHand in
    let* _ := modify (fun g =>
      set_playerHands (splice_insert (activeHandIndex g + 1) newHand (playerHands g)) g) in
    let* activeHand := readHand i "cards" in
    if (value (getHandValue (cards activeHand)) =? 21)%Z
    then modifyHand i "status" (set_status STOOD)
    else ret tt
  end.

(** ** Round control: [resetGame], the constructor, [startRound] *)

Definition resetGame (rnd : nat -> nat) : M unit :=
  let* opts := gets options in
  let* _ := modify (set_deck (createNewDeck rnd opts)) in
  let* _ := modify (set_playerHands []) in
  let* _ := modify (set_dealerHand []) in
  let* _ := modify (set_activeHandIndex 0) in
  modify (set_phase BETTING).

(** [Partial<GameOptions>]: every field may be absent. *)
Record PartialOptions := mkPartial {
  numberOfDecks_opt : option Z;
  dealerHitsOnSoft17_opt : option bool;
  blackjackPayout_opt : option Q
}.

(** [{ numberOfDecks: 4, dealerHitsOnSoft17: true, blackjackPayout: 1.5,
      ...options }] *)
Definition mergeOptions (o : PartialOptions) : GameOptions :=
  {| numberOfDecks := default (numberOfDecks defaultOptions) (numberOfDecks_opt o);
     dealerHitsOnSoft17 :=
       default (dealerHitsOnSoft17 defaultOptions) (dealerHitsOnSoft17_opt o);
     blackjackPayout :=
       default (blackjackPayout defaultOptions) (blackjackPayout_opt o) |}.

(** The field initialisers followed by the constructor body. *)
Definition constructor (rnd : nat -> nat) (o : PartialOptions)
  : outcome unit * BlackjackGame :=
  resetGame rnd (mkGame [] [] [] 0 BETTING (mergeOptions o)).

(** [this.deck.length < (this.options.numberOfDecks * 52) / 3], the
    division being exact: both sides times three. *)
Definition belowReshuffleThreshold (g : BlackjackGame) : bool :=
  (3 * Z.of_nat (length (deck g)) <? numberOfDecks (options g) * 52)%Z.

Definition startRound (rnd : nat -> nat) (betAmount : Z) : M unit :=
  let* ph := gets phase in
  if negb (bool_decide (ph = BETTING)) && negb (bool_decide (ph = ROUND_OVER))
  then ret tt else
  if (betAmount <=? 0)%Z then throw (Error "Bet amount must be positive.") else
  let* g := gets id in
  let* _ := (if belowReshuffleThreshold g
             then modify (set_deck (createNewDeck rnd (options g)))
             else ret tt) in
  let* p1 := dealCard in
  let* p2 := dealCard in
  let* _ := modify (set_playerHands [mkHand [p1; p2] betAmount ACTIVE PENDING]) in
  let* d1 := dealCard in
  let* d2 := dealCard in
  let* _ := modify (set_dealerHand [d1; d2]) in
  let* _ := modify (set_activeHandIndex 0) in
  let* _ := modify (set_phase PLAYER_TURN) in
  let* hand0 := readHand 0 "cards" in
  let playerHandValue := getHandValue (cards hand0) in
  if (value playerHandValue =? 21)%Z then
    let* _ := modifyHand 0 "status" (set_status BLACKJACK) in
    resolveDealerTurn
  else ret tt.

(** ** Snapshot: [getState], on values *)

(** [getHandValue([this.dealerHand[0]])]: the one-element array holds
    [undefined] when the dealer hand is empty; its length is 1, so the
    empty-hand guard of [getHandValue] does not apply and the loop reads
    [card.rank] on [undefined]. *)
Definition upCardValue (g : BlackjackGame) : outcome HandValue :=
  match dealerHand g !! 0 with
  | None => Throw (TypeError "rank")
  | Some card => Ret (getHandValue [card])
  end.

(** [[this.dealerHand[0]]] in PLAYER_TURN (read here on a dealer hand that
    is not empty: on an empty one [getState] throws), [[...this.dealerHand]]
    in the other phases. *)
Definition visibleDealerHand (g : BlackjackGame) : list Card :=
  match phase g with
  | PLAYER_TURN => take 1 (dealerHand g)
  | _ => dealerHand g
  end.

(** The fields of the object literal are evaluated in source order; the
    first that can throw is [dealerUpCardValue], the second
    [availableActions].  On values, the JSON round trip of [playerHands]
    returns the same hands. *)
Definition getState (g : BlackjackGame) : outcome GameState.t :=
  match upCardValue g with
  | Throw e => Throw e
  | Ret upValue =>
    match getAvailableActions g with
    | Throw e => Throw e
    | Ret actions =>
      Ret {| GameState.deckSize := length (deck g);
             GameState.playerHands := playerHands g;
             GameState.dealerHand := visibleDealerHand g;
             GameState.activeHandIndex := activeHandIndex g;
             GameState.phase := phase g;
             GameState.dealerUpCardValue := value upValue;
             GameState.availableActions := actions |}
    end
  end.

(** ** Snapshot: [getState], on object references

    A [Card] is a JavaScript object, held by reference.  To follow which
    Card objects a snapshot shares with the engine, this module keeps the
    Card objects in a store and lets the arrays hold their addresses.
    Arrays and [HandState] objects are kept by value: the snapshot's are
    all built anew by [getState] (array literal, spread, [JSON.parse]),
    so a Card object is the only thing a snapshot and the engine can
    share. *)
Module Refs.

(** An address. *)
Abbreviation loc := nat (only parsing).

(** The Card objects allocated so far; an address is a position. *)
Abbreviation store := (list Card) (only parsing).

Record HandRef := mkHandRef {
  cardRefs : list loc;
  handBet : Z;
  handStatus : HandStatus;
  handResult : HandResult
}.

Record GameRef := mkGameRef {
  deckRefs : list loc;
  handRefs : list HandRef;
  dealerRefs : list loc;
  activeIndex : nat;
  currentPhase : GamePhase;
  gameOptions : GameOptions
}.

Record SnapshotRef := mkSnapshotRef {
  snapDeckSize : nat;
  snapHands : list HandRef;
  snapDealer : list loc;
  snapActiveIndex : nat;
  snapPhase : GamePhase;
  snapUpCardValue : Z;
  snapActions : list PlayerAction
}.

(** Reading the objects behind addresses. *)
Definition deref (σ : store) (ls : list loc) : list Card :=
  omap (fun l => σ !! l) ls.

Definition viewHand (σ : store) (h : HandRef) : HandState :=
  mkHand (deref σ (cardRefs h)) (handBet h) (handStatus h) (handResult h).

(** The engine's fields as the engine reads them in store [σ]. *)
Definition viewGame (σ : store) (g : GameRef) : BlackjackGame :=
  mkGame (deref σ (deckRefs g)) (map (viewHand σ) (handRefs g))
         (deref σ (dealerRefs g)) (activeIndex g) (currentPhase g)
         (gameOptions g).

(** The snapshot as its holder reads it in store [σ]. *)
Definition viewSnapshot (σ : store) (s : SnapshotRef) : GameState.t :=
  GameState.mk (snapDeckSize s) (map (viewHand σ) (snapHands s))
               (deref σ (snapDealer s)) (snapActiveIndex s) (snapPhase s)
               (snapUpCardValue s) (snapActions s).

(** Every address the engine holds is allocated. *)
Definition wfGame (σ : store) (g : GameRef) : Prop :=
  Forall (fun l => l < length σ) (deckRefs g)
  ∧ Forall (fun h => Forall (fun l => l < length σ) (cardRefs h)) (handRefs g)
  ∧ Forall (fun l => l < length σ) (dealerRefs g).

(** [JSON.parse(JSON.stringify(card))]: a new object with the same
    fields.  (An address outside the store does not occur in a running
    program; it is left as it is.) *)
Definition copyCard (σ : store) (l : loc) : loc * store :=
  match σ !! l with
  | Some card => (length σ, σ ++ [card])
  | None => (l, σ)
  end.

Fixpoint copyCards (σ : store) (ls : list loc) : list loc * store :=
  match ls with
  | [] => ([], σ)
  | l :: ls' =>
    let '(l', σ1) := copyCard σ l in
    let '(ls'', σ2) := copyCards σ1 ls' in
    (l' :: ls'', σ2)
  end.

Definition copyHand (σ : store) (h : HandRef) : HandRef * store :=
  let '(ls, σ') := copyCards σ (cardRefs h) in
  (mkHandRef ls (handBet h) (handStatus h) (handResult h), σ').

(** [JSON.parse(JSON.stringify(this.playerHands))] *)
Fixpoint copyHands (σ : store) (hs : list HandRef) : list HandRef * store :=
  match hs with
  | [] => ([], σ)
  | h :: hs' =>
    let '(h', σ1) := copyHand σ h in
    let '(hs'', σ2) := copyHands σ1 hs' in
    (h' :: hs'', σ2)
  end.

(** [getState]: the player hands are copied object by object; the
    dealer hand is a new array holding the engine's Card objects. *)
Definition getState (σ : store) (g : GameRef) : outcome SnapshotRef * store :=
  let '(hands, σ') := copyHands σ (handRefs g) in
  let dealer :=
    match currentPhase g with
    | PLAYER_TURN => take 1 (dealerRefs g)
    | _ => dealerRefs g
    end in
  match upCardValue (viewGame σ' g) with
  | Throw e => (Throw e, σ')
  | Ret upValue =>
    match getAvailableActions (viewGame σ' g) with
    | Throw e => (Throw e, σ')
    | Ret actions =>
      (Ret (mkSnapshotRef (length (deckRefs g)) hands dealer (activeIndex g)
                          (currentPhase g) (value upValue) actions), σ')
    end
  end.

(** What a holder of a snapshot can do to a Card object it reaches: assign
    its fields.  [writeCard l f] replaces the object at [l] by [f] of it;
    [card.rank = r] and [card.suit = u] are the two instances. *)
Definition writeCard (l : loc) (f : Card -> Card) (σ : store) : store :=
  match σ !! l with
  | Some card => <[l := f card]> σ
  | None => σ
  end.

Definition writeRank (l : loc) (r : Z) : store -> store :=
  writeCard l (fun card => mkCard r (suit card)).

Definition writeSuit (l : loc) (u : Z) : store -> store :=
  writeCard l (fun card => mkCard (rank card) u).

#[global] Instance wfGame_dec σ g : Decision (wfGame σ g).
Proof. unfold wfGame. apply _. Defined.

End Refs.

(** ** Reachable states

    The states an engine can be in: what the constructor leaves, and what
    any public mutating method leaves, whether it returns or throws. *)

Inductive Call :=
| CallResetGame (rnd : nat -> nat)
| CallStartRound (rnd : nat -> nat) (betAmount : Z)
| CallHit | CallStand | CallDoubleDown | CallSplit.

Definition runCall (c : Call) : M unit :=
  match c with
  | CallResetGame rnd => resetGame rnd
  | CallStartRound rnd b => startRound rnd b
  | CallHit => hit
  | CallStand => stand
  | CallDoubleDown => doubleDown
  | CallSplit => split
  end.

Inductive reachable : BlackjackGame -> Prop :=
| reachable_new rnd o out g : constructor rnd o = (out, g) -> reachable g
| reachable_call g c out g' :
    reachable g -> runCall c g = (out, g') -> reachable g'.

(** In PLAYER_TURN the active index designates a player hand. *)
Definition activeHandDefined (g : BlackjackGame) : Prop :=
  phase g = PLAYER_TURN → activeHandIndex g < length (playerHands g).

#[global] Instance activeHandDefined_dec g : Decision (activeHandDefined g).
Proof. unfold activeHandDefined. apply _. Defined.

(** ** Example states *)

Definition example_dealer : list Card := [mkCard 10 0; mkCard 7 1].

(** Before a round: no hands, a full unshuffled deck in the shoe. *)
Definition example_betting : BlackjackGame :=
  mkGame oneDeck [] [] 0 BETTING defaultOptions.

(** A new engine with the default options, and the same engine after
    [startRound(10)]: the player holds an Ace and a 2, the dealer a 3 and
    a 4. *)
Definition example_new : BlackjackGame :=
  (constructor (fun k => k) (mkPartial None None None)).2.

Definition example_started : BlackjackGame :=
  (startRound (fun _ => 0) 10 example_new).2.

(** The player's turn on the three cards 5, 6, 2. *)
Definition example_three_cards : BlackjackGame :=
  mkGame [mkCard 4 0; mkCard 8 1]
         [mkHand [mkCard 5 0; mkCard 6 1; mkCard 2 2] 10 ACTIVE PENDING]
         example_dealer 0 PLAYER_TURN defaultOptions.

(** The player's turn on a King and a 10; the shoe will deal an Ace, then
    a 9, then a 5 (the array's last element is dealt first). *)
Definition example_pair : BlackjackGame :=
  mkGame [mkCard 3 0; mkCard 5 1; mkCard 9 2; mkCard 1 3]
         [mkHand [mkCard 13 0; mkCard 10 1] 10 ACTIVE PENDING]
         example_dealer 0 PLAYER_TURN defaultOptions.


(** Three finished player hands facing the dealer's 10, 7: a bust hand,
    a natural blackjack and a hand stood on 10, 8. *)
Definition example_finished : BlackjackGame :=
  mkGame [mkCard 3 0]
         [mkHand [mkCard 10 0; mkCard 6 1; mkCard 9 2] 10 BUST PENDING;
          mkHand [mkCard 1 0; mkCard 13 1] 10 BLACKJACK PENDING;
          mkHand [mkCard 10 2; mkCard 8 3] 10 STOOD PENDING]
         example_dealer 2 DEALER_TURN defaultOptions.

(** A store of five Card objects and an engine over it: the dealer holds
    objects 0 and 1 (an Ace and a 6), the player objects 2 and 3, the shoe
    object 4. *)
Definition example_store : list Card :=
  [mkCard 1 0; mkCard 6 1; mkCard 10 2; mkCard 8 3; mkCard 5 0].

Definition example_refs : Refs.GameRef :=
  Refs.mkGameRef [4] [Refs.mkHandRef [2; 3] 10 STOOD PLAYER_WINS] [0; 1]
                 0 ROUND_OVER defaultOptions.

Definition example_refs_playing : Refs.GameRef :=
  Refs.mkGameRef [4] [Refs.mkHandRef [2; 3] 10 ACTIVE PENDING] [0; 1]
                 0 PLAYER_TURN defaultOptions.

(** ** Quantities the properties are stated with *)

(** The value of a card with an Ace counted as 1, the total of a hand with
    every Ace counted as 1, and the number of Aces in it. *)
Definition hardValue (card : Card) : Z :=
  if (10 <? rank card)%Z then 10%Z else rank card.
Definition hardTotal (hand : list Card) : Z :=
  foldr (fun card acc => (hardValue card + acc)%Z) 0%Z hand.
Definition countAces (hand : list Card) : nat :=
  length (filter (fun card => rank card = 1%Z) hand).

(** Every card the engine holds: shoe, player hands, dealer hand. *)
Definition allCards (g : BlackjackGame) : list Card :=
  deck g ++ concat (map cards (playerHands g)) ++ dealerHand g.

(** Two engines that differ at most in their options. *)
Definition agreeButOptions (g1 g2 : BlackjackGame) : Prop :=
  deck g1 = deck g2 ∧ playerHands g1 = playerHands g2
  ∧ dealerHand g1 = dealerHand g2
  ∧ activeHandIndex g1 = activeHandIndex g2 ∧ phase g1 = phase g2.

(** The shoe [startRound] deals from: a new one when the old one is below
    the reshuffle threshold. *)
Definition shoeForRound (rnd : nat -> nat) (g : BlackjackGame) : list Card :=
  if belowReshuffleThreshold g then createNewDeck rnd (options g) else deck g.


(** The player's turn on a pair of 8s with an empty shoe; the dealer holds
    a 10 and a 5. *)
Definition example_empty_shoe : BlackjackGame :=
  mkGame [] [mkHand [mkCard 8 0; mkCard 8 1] 10 ACTIVE PENDING]
         [mkCard 10 0; mkCard 5 1] 0 PLAYER_TURN defaultOptions.

(** The finished hands of [example_finished] under the other dealer rule. *)
Definition example_finished_stand17 : BlackjackGame :=
  mkGame (deck example_finished) (playerHands example_finished)
         (dealerHand example_finished) (activeHandIndex example_finished)
         (phase example_finished) (mkOptions 4 false (3 # 2)).

(** * Properties *)

Arguments getHandValue : simpl never.

(** ** Hand values *)

Example handValue_bust_no_ace :
  getHandValue [mkCard 10 0; mkCard 9 0; mkCard 5 0] = mkValue 24 false.
Proof. reflexivity. Qed.

Example handValue_single_ace : getHandValue [mkCard 1 0] = mkValue 11 true.
Proof. reflexivity. Qed.

Example handValue_empty : getHandValue [] = mkValue 0 false.
Proof. reflexivity. Qed.

(** The total is the one §4.1 describes: the two functions differ in the
    flag only. *)
Lemma getHandValue_total_spec hand :
  value (getHandValue hand) = value (spec_handValue hand).
Proof.
  unfold getHandValue, spec_handValue.
  destruct hand as [|c hand]; [reflexivity|].
  destruct (fold_left addCard (c :: hand) (0%Z, 0)) as [sum aces].
  destruct (demote sum aces); reflexivity.
Qed.

(** The flag as the specification words it is set on the two hands of
    claim C1. *)
Lemma spec_handValue_examples s1 s2 :
  spec_handValue [mkCard 1 s1; mkCard 13 s2] = mkValue 21 true
  ∧ spec_handValue [mkCard 1 s1; mkCard 1 s2] = mkValue 12 true.
Proof. split; reflexivity. Qed.

(** C1, a defect of the code: on an Ace with a King, and on two Aces,
    [getHandValue] returns the totals 21 and 12 with [isSoft = false],
    whatever the suits: the flag tests [sum + 10 * aceCount <= 21] on a
    [sum] that already counts the Ace as 11. *)
Theorem getHandValue_ace_hands_not_soft (s1 s2 : Z) :
  getHandValue [mkCard 1 s1; mkCard 13 s2] = mkValue 21 false
  ∧ getHandValue [mkCard 1 s1; mkCard 1 s2] = mkValue 12 false.
Proof. split; reflexivity. Qed.

(** On cards of rank at least 1 every Ace still counted is worth 11 of the
    sum, through the card loop and through the demotion loop. *)
Lemma addCard_bound acc card :
  (1 <= rank card)%Z →
  (11 * Z.of_nat acc.2 <= acc.1)%Z →
  (11 * Z.of_nat (addCard acc card).2 <= (addCard acc card).1)%Z.
Proof.
  destruct acc as [sum aces]; unfold addCard; simpl; intros Hr Hb.
  destruct (10 <? rank card)%Z; [simpl; lia|].
  destruct (rank card =? 1)%Z; simpl; lia.
Qed.

Lemma fold_addCard_bound hand : ∀ acc,
  Forall (fun c => 1 <= rank c)%Z hand →
  (11 * Z.of_nat acc.2 <= acc.1)%Z →
  (11 * Z.of_nat (fold_left addCard hand acc).2 <= (fold_left addCard hand acc).1)%Z.
Proof.
  induction hand as [|c hand IH]; intros acc Hall Hb; [exact Hb|].
  inversion Hall; subst. simpl. apply IH; [assumption|].
  by apply addCard_bound.
Qed.

Lemma demote_bound aces : ∀ sum,
  (11 * Z.of_nat aces <= sum)%Z →
  (11 * Z.of_nat (demote sum aces).2 <= (demote sum aces).1)%Z.
Proof.
  induction aces as [|n IH]; intros sum Hb; simpl; [lia|].
  destruct (21 <? sum)%Z; [apply IH; lia | simpl; lia].
Qed.

(** The demotion loop ends with a total of at most 21 or with no Ace left
    at 11. *)
Lemma demote_exit aces : ∀ sum,
  ((demote sum aces).1 <= 21)%Z ∨ (demote sum aces).2 = 0.
Proof.
  induction aces as [|n IH]; intros sum; simpl; [by right|].
  destruct (21 <? sum)%Z eqn:E; [apply IH|].
  left; simpl. by apply Z.ltb_ge.
Qed.

(** So the flag the code computes is set only on a total of 11: on cards
    of rank at least 1, a hand flagged soft is worth exactly 11. *)
Lemma getHandValue_soft_eleven hand :
  Forall (fun c => 1 <= rank c)%Z hand →
  isSoft (getHandValue hand) = true →
  value (getHandValue hand) = 11%Z.
Proof.
  intros Hall. unfold getHandValue.
  destruct hand as [|c hand]; [discriminate|].
  pose proof (fold_addCard_bound (c :: hand) (0%Z, 0) Hall) as Hf.
  destruct (fold_left addCard (c :: hand) (0%Z, 0)) as [sum aces].
  pose proof (demote_bound aces sum (Hf ltac:(simpl; lia))) as Hd.
  destruct (demote sum aces) as [sum' aces']; simpl in *.
  intros Hs. apply andb_true_iff in Hs as [Ha Hle].
  apply Nat.ltb_lt in Ha. apply Z.leb_le in Hle. lia.
Qed.

(** The hand-value function never flags a total above 21 as soft. *)
Lemma getHandValue_soft_le_21 hand :
  isSoft (getHandValue hand) = true → (value (getHandValue hand) <= 21)%Z.
Proof.
  unfold getHandValue.
  destruct hand as [|c hand]; [discriminate|].
  destruct (fold_left addCard (c :: hand) (0%Z, 0)) as [sum aces].
  destruct (demote sum aces) as [sum' aces']; simpl.
  intros Hs. apply andb_true_iff in Hs as [Ha Hle].
  apply Z.leb_le in Hle. lia.
Qed.

(** Whenever the code sets the flag, so does the specification's wording;
    the two hands of C1 show that the converse fails. *)
Lemma getHandValue_soft_spec hand :
  isSoft (getHandValue hand) = true → isSoft (spec_handValue hand) = true.
Proof.
  unfold getHandValue, spec_handValue.
  destruct hand as [|c hand]; [discriminate|].
  destruct (fold_left addCard (c :: hand) (0%Z, 0)) as [sum aces].
  destruct (demote sum aces) as [sum' aces']; simpl.
  intros Hs. apply andb_true_iff in Hs as [Ha Hle].
  apply andb_true_iff. split; [exact Ha|].
  apply Z.leb_le in Hle. apply Z.leb_le. lia.
Qed.

(** The soft-17 clause of the dealer's guard is dead on real cards: the
    guard is [total < 17], whatever [dealerHitsOnSoft17] says. *)
Lemma dealerMustDraw_below_17 opts hand :
  Forall (fun c => 1 <= rank c)%Z hand →
  dealerMustDraw opts (getHandValue hand) = (value (getHandValue hand) <? 17)%Z.
Proof.
  intros Hall. unfold dealerMustDraw.
  destruct (isSoft (getHandValue hand)) eqn:Hs.
  - rewrite (getHandValue_soft_eleven hand Hall Hs). reflexivity.
  - rewrite andb_false_r. simpl. apply orb_false_r.
Qed.

(** ** Arrays and the shoe *)

Lemma array_pop_push {A} (l : list A) (x : A) :
  array_pop (array_push x l) = Some (x, l).
Proof.
  unfold array_push. induction l as [|y l IH]; simpl; [reflexivity|].
  rewrite IH. reflexivity.
Qed.

Lemma array_pop_Some {A} (l : list A) x r :
  array_pop l = Some (x, r) → l = r ++ [x].
Proof.
  revert x r. induction l as [|y l IH]; intros x r; simpl; [discriminate|].
  destruct (array_pop l) as [[z r']|] eqn:E.
  - intros [= <- <-]. simpl. f_equal. by apply IH.
  - destruct l as [|y' l]; [by intros [= <- <-]|].
    simpl in E. destruct (array_pop l) as [[? ?]|]; discriminate.
Qed.

Lemma array_pop_None {A} (l : list A) : array_pop l = None ↔ l = [].
Proof.
  split; [|by intros ->].
  destruct l as [|y l]; [done|]. simpl.
  destruct (array_pop l) as [[? ?]|]; discriminate.
Qed.

Lemma array_pop_length {A} (l : list A) x r :
  array_pop l = Some (x, r) → length l = S (length r).
Proof.
  intros H. apply array_pop_Some in H as ->.
  rewrite length_app. simpl. lia.
Qed.

Lemma dealCard_Ret g card g' :
  dealCard g = (Ret card, g') →
  deck g = deck g' ++ [card] ∧ g' = set_deck (deck g') g.
Proof.
  unfold dealCard. destruct (array_pop (deck g)) as [[c r]|] eqn:E; [|discriminate].
  intros [= <- <-]. split; [by apply array_pop_Some | reflexivity].
Qed.

Lemma dealCard_top g card rest :
  deck g = rest ++ [card] → dealCard g = (Ret card, set_deck rest g).
Proof.
  intros H. unfold dealCard. rewrite H.
  change (rest ++ [card]) with (array_push card rest).
  by rewrite array_pop_push.
Qed.

Lemma dealCard_empty g :
  deck g = [] → dealCard g = (Throw (Error "Deck is empty."), g).
Proof. intros H. unfold dealCard. by rewrite H. Qed.

(** [createNewDeck] on one deck before shuffling: 52 cards, suits outside,
    ranks inside. *)
Example oneDeck_length : length oneDeck = 52.
Proof. reflexivity. Qed.

Lemma swap_length {A} i j (l : list A) : length (swap i j l) = length l.
Proof.
  unfold swap. destruct (l !! i), (l !! j); try reflexivity.
  by rewrite !length_insert.
Qed.

Lemma shuffle_length {T} rnd (array : list T) :
  length (shuffle rnd array) = length array.
Proof.
  unfold shuffle. generalize (length array) at 1 as n. generalize 0 as k.
  intros k n. revert k array.
  induction n as [|n IH]; intros k array; simpl; [reflexivity|].
  rewrite IH. apply swap_length.
Qed.

(** ** Dealer resolution *)

(** Fuel above the length of the deck is never used up: the loop then
    behaves the same on any such amount. *)
Lemma dealerLoop_fuel n : ∀ m g,
  length (deck g) < n → length (deck g) < m →
  dealerLoop n g = dealerLoop m g.
Proof.
  induction n as [|n IH]; intros m g Hn Hm; [lia|].
  destruct m as [|m]; [lia|]. simpl.
  unfold bind, gets. simpl.
  destruct (dealerMustDraw _ _); [|reflexivity].
  unfold dealCard. destruct (array_pop (deck g)) as [[c r]|] eqn:E; [|reflexivity].
  unfold modify. apply array_pop_length in E.
  apply IH; simpl; lia.
Qed.

(** The loop stops without drawing as soon as its guard is false. *)
Lemma dealerLoop_stop fuel g :
  dealerMustDraw (options g) (getHandValue (dealerHand g)) = false →
  dealerLoop fuel g = (Ret tt, g).
Proof.
  intros H. destruct fuel; [reflexivity|]. simpl.
  unfold bind, gets. simpl. by rewrite H.
Qed.

(** It draws exactly one card and goes round again while the guard is true
    and the deck is not empty. *)
Lemma dealerLoop_draw fuel g card rest :
  dealerMustDraw (options g) (getHandValue (dealerHand g)) = true →
  deck g = rest ++ [card] →
  dealerLoop (S fuel) g =
  dealerLoop fuel (set_dealerHand (array_push card (dealerHand g)) (set_deck rest g)).
Proof.
  intros H Hd. simpl. unfold bind at 1, gets. simpl. rewrite H.
  unfold bind at 1. rewrite (dealCard_top g card rest Hd).
  reflexivity.
Qed.

(** C2, a defect of the code: on the dealer hand Ace, 6 the dealer
    resolution draws no card, whatever [dealerHitsOnSoft17] is: it leaves
    the deck and the dealer hand as they are, settles the player hands
    against 17 and ends in ROUND_OVER. [getHandValue] reports the hand as 17
    and not soft. *)
Theorem resolveDealerTurn_ace_six_no_draw
  (d : list Card) (hands : list HandState) (i : nat) (ph : GamePhase)
  (opts : GameOptions) (s1 s2 : Z) :
  getHandValue [mkCard 1 s1; mkCard 6 s2] = mkValue 17 false
  ∧ resolveDealerTurn (mkGame d hands [mkCard 1 s1; mkCard 6 s2] i ph opts)
    = (Ret tt, mkGame d (map (settleHand 17 false) hands)
                      [mkCard 1 s1; mkCard 6 s2] i ROUND_OVER opts).
Proof.
  split; [reflexivity|].
  unfold resolveDealerTurn, bind, modify, gets. simpl.
  unfold bind, gets. simpl.
  destruct (dealerHitsOnSoft17 opts); reflexivity.
Qed.

(** ** Reset and snapshot *)

Lemma resetGame_fields rnd g :
  resetGame rnd g =
  (Ret tt, mkGame (createNewDeck rnd (options g)) [] [] 0 BETTING (options g)).
Proof. reflexivity. Qed.

(** [getState] throws on every state whose dealer hand is empty. *)
Lemma getState_empty_dealer g :
  dealerHand g = [] → getState g = Throw (TypeError "rank").
Proof. intros H. unfold getState, upCardValue. by rewrite H. Qed.


(** C3, a defect of the code: [resetGame()] always succeeds and leaves the
    phase BETTING with no player hand and no dealer card, and the
    [getState()] that follows always throws:
    [getHandValue([this.dealerHand[0]])] reads [rank] on the [undefined]
    first card of the empty dealer hand. *)
Theorem resetGame_getState_throws (rnd : nat -> nat) (g : BlackjackGame) :
  ∃ g', resetGame rnd g = (Ret tt, g')
        ∧ phase g' = BETTING ∧ playerHands g' = [] ∧ dealerHand g' = []
        ∧ (let* _ := resetGame rnd in lift getState) g
          = (Throw (TypeError "rank"), g').
Proof.
  eexists. split; [apply resetGame_fields|].
  repeat split; reflexivity.
Qed.

(** The same on a newly constructed engine, before any round. *)
Lemma constructor_getState_throws rnd o :
  ∃ g, constructor rnd o = (Ret tt, g)
       ∧ getState g = Throw (TypeError "rank").
Proof. eexists. split; reflexivity. Qed.

(** ** Legal actions *)

(** Membership of an action in a given list of actions, by evaluation. *)
Ltac by_evaluation := apply (bool_decide_unpack _); vm_compute; exact I.
Ltac no_such_action :=
  let H := fresh in intros H; exfalso; revert H; by_evaluation.

(** [rank > 9 ? 10 : rank] is [min(rank, 10)] on an integer rank. *)
Lemma split_value_min (r : Z) :
  (if (9 <? r)%Z then 10%Z else r) = Z.min r 10.
Proof. destruct (9 <? r)%Z eqn:E; [apply Z.ltb_lt in E | apply Z.ltb_ge in E]; lia. Qed.

Lemma canSplit_spec hand :
  canSplit hand = true ↔
  ∃ c1 c2, cards hand = [c1; c2] ∧ Z.min (rank c1) 10 = Z.min (rank c2) 10.
Proof.
  unfold canSplit. split.
  - destruct (cards hand) as [|c1 [|c2 [|c3 l]]]; try discriminate.
    rewrite !split_value_min. intros H%Z.eqb_eq. eauto.
  - intros (c1 & c2 & -> & H). rewrite !split_value_min. by apply Z.eqb_eq.
Qed.

(** The set of actions in PLAYER_TURN, by the shape of the active hand. *)
Lemma getAvailableActions_player_turn g hand :
  phase g = PLAYER_TURN → getActiveHand g = Some hand →
  getAvailableActions g =
  Ret (if length (cards hand) =? 2
       then if canSplit hand then [HIT; STAND; DOUBLE_DOWN; SPLIT]
            else [HIT; STAND; DOUBLE_DOWN]
       else [HIT; STAND]).
Proof.
  intros Hp Hh. unfold getAvailableActions. rewrite Hp, Hh.
  destruct (length (cards hand) =? 2); simpl; [|reflexivity].
  destruct (canSplit hand); reflexivity.
Qed.

Lemma getAvailableActions_other_phase g :
  phase g ≠ PLAYER_TURN → getAvailableActions g = Ret [].
Proof. unfold getAvailableActions. destruct (phase g); congruence. Qed.

(** Whenever the legal actions are defined and not empty, the phase is
    PLAYER_TURN and there is an active hand. *)
Lemma getAvailableActions_elem g actions a :
  getAvailableActions g = Ret actions → a ∈ actions →
  phase g = PLAYER_TURN ∧ ∃ hand, getActiveHand g = Some hand.
Proof.
  unfold getAvailableActions. intros H Ha.
  destruct (phase g); try (injection H as <-; by apply elem_of_nil in Ha).
  split; [reflexivity|]. destruct (getActiveHand g); [eauto | discriminate].
Qed.

(** C9: outside PLAYER_TURN no action is legal.  In PLAYER_TURN, with [hand]
    the active hand, the legal actions contain HIT and STAND, contain
    DOUBLE_DOWN iff the hand has exactly two cards, contain SPLIT iff the
    hand is two cards whose ranks agree under [min(rank, 10)], and never
    contain INSURANCE.  Ranks 10 and 13 can be split, ranks 9 and 10
    cannot. *)
Theorem getAvailableActions_spec (g : BlackjackGame) :
  (phase g ≠ PLAYER_TURN → getAvailableActions g = Ret [])
  ∧ (∀ hand, phase g = PLAYER_TURN → getActiveHand g = Some hand →
       ∃ actions, getAvailableActions g = Ret actions
         ∧ HIT ∈ actions ∧ STAND ∈ actions
         ∧ (DOUBLE_DOWN ∈ actions ↔ length (cards hand) = 2)
         ∧ (SPLIT ∈ actions ↔
              ∃ c1 c2, cards hand = [c1; c2]
                       ∧ Z.min (rank c1) 10 = Z.min (rank c2) 10)
         ∧ INSURANCE ∉ actions)
  ∧ (∀ s1 s2 b st r,
       canSplit (mkHand [mkCard 10 s1; mkCard 13 s2] b st r) = true
       ∧ canSplit (mkHand [mkCard 9 s1; mkCard 10 s2] b st r) = false).
Proof.
  split; [apply getAvailableActions_other_phase|].
  split; [|intros; split; reflexivity].
  intros hand Hp Hh. eexists. split; [by apply getAvailableActions_player_turn|].
  pose proof (canSplit_spec hand) as Hsplit.
  destruct (length (cards hand) =? 2) eqn:El.
  - apply Nat.eqb_eq in El.
    destruct (canSplit hand) eqn:Ec.
    + split; [by_evaluation|]. split; [by_evaluation|].
      split; [split; [done | intros _; by_evaluation]|].
      split; [|by_evaluation].
      split; [intros _; by apply Hsplit | intros _; by_evaluation].
    + split; [by_evaluation|]. split; [by_evaluation|].
      split; [split; [done | intros _; by_evaluation]|].
      split; [|by_evaluation].
      split; [no_such_action | intros Hex; apply Hsplit in Hex; discriminate].
  - apply Nat.eqb_neq in El.
    split; [by_evaluation|]. split; [by_evaluation|].
    split; [split; [no_such_action | done]|].
    split; [|by_evaluation].
    split; [no_such_action|].
    intros (c1 & c2 & Hc & _). rewrite Hc in El. simpl in El. lia.
Qed.

(** ** The method monad *)

Lemma bind_Ret {A B} (m : M A) (k : A -> M B) g a g' :
  m g = (Ret a, g') → bind m k g = k a g'.
Proof. intros H. unfold bind. by rewrite H. Qed.

Lemma bind_Throw {A B} (m : M A) (k : A -> M B) g e g' :
  m g = (Throw e, g') → bind m k g = (Throw e, g').
Proof. intros H. unfold bind. by rewrite H. Qed.

Lemma canPerformAction_Ret g actions a :
  getAvailableActions g = Ret actions →
  canPerformAction a g = (Ret (bool_decide (a ∈ actions)), g).
Proof. intros H. unfold canPerformAction, bind, lift. by rewrite H. Qed.

Lemma canPerformAction_Throw g e a :
  getAvailableActions g = Throw e → canPerformAction a g = (Throw e, g).
Proof. intros H. unfold canPerformAction, bind, lift. by rewrite H. Qed.

(** ** Illegal actions *)

(** C5: when the requested action is not among the legal actions, the call
    of its method returns normally and leaves every field as it was. *)
Theorem illegal_action_noop
  (g : BlackjackGame) (actions : list PlayerAction) (a : PlayerAction) :
  getAvailableActions g = Ret actions →
  a ∉ actions →
  match a with
  | HIT => hit g = (Ret tt, g)
  | STAND => stand g = (Ret tt, g)
  | DOUBLE_DOWN => doubleDown g = (Ret tt, g)
  | SPLIT => split g = (Ret tt, g)
  | INSURANCE => True
  end.
Proof.
  intros Hacts Hnot.
  pose proof (canPerformAction_Ret g actions a Hacts) as Hcan.
  rewrite (bool_decide_eq_false_2 _ Hnot) in Hcan.
  destruct a; [| | | |exact I].
  - unfold hit. by rewrite (bind_Ret _ _ _ _ _ Hcan).
  - unfold stand. by rewrite (bind_Ret _ _ _ _ _ Hcan).
  - unfold doubleDown. by rewrite (bind_Ret _ _ _ _ _ Hcan).
  - unfold split. by rewrite (bind_Ret _ _ _ _ _ Hcan).
Qed.

(** Outside PLAYER_TURN all four methods are such no-ops. *)
Lemma actions_noop_outside_player_turn g :
  phase g ≠ PLAYER_TURN →
  hit g = (Ret tt, g) ∧ stand g = (Ret tt, g)
  ∧ doubleDown g = (Ret tt, g) ∧ split g = (Ret tt, g).
Proof.
  intros Hp. pose proof (getAvailableActions_other_phase g Hp) as Ha.
  assert (∀ a, canPerformAction a g = (Ret false, g)) as Hcan
    by (intros a; by rewrite (canPerformAction_Ret g [] a Ha)).
  unfold hit, stand, doubleDown, split.
  by rewrite !(bind_Ret _ _ _ _ _ (Hcan _)).
Qed.

(** ** Starting a round *)

(** C6, amended: in PLAYER_TURN and DEALER_TURN [startRound] returns
    without an error and changes nothing, whatever the bet; in BETTING and
    ROUND_OVER a bet of zero or less makes it throw "Bet amount must be
    positive." with every field as it was. *)
Theorem startRound_guards (rnd : nat -> nat) (g : BlackjackGame) (b : Z) :
  (phase g = PLAYER_TURN ∨ phase g = DEALER_TURN →
   startRound rnd b g = (Ret tt, g))
  ∧ (phase g = BETTING ∨ phase g = ROUND_OVER → (b <= 0)%Z →
     startRound rnd b g = (Throw (Error "Bet amount must be positive."), g)).
Proof.
  split.
  - intros Hp. unfold startRound, bind, gets.
    by destruct Hp as [-> | ->].
  - intros Hp Hb. unfold startRound, bind, gets.
    apply Z.leb_le in Hb.
    destruct Hp as [-> | ->]; simpl; by rewrite Hb.
Qed.

(** The example engine plays a round: 208 cards, two cards each, the
    player stands on 13 and loses to the dealer's 3, 4, 5, 6. *)
Example example_round :
  length (deck example_new) = 208
  ∧ playerHands example_started
    = [mkHand [mkCard 1 0; mkCard 2 0] 10 ACTIVE PENDING]
  ∧ dealerHand example_started = [mkCard 3 0; mkCard 4 0]
  ∧ phase example_started = PLAYER_TURN
  ∧ getAvailableActions example_started = Ret [HIT; STAND; DOUBLE_DOWN]
  ∧ ∃ g, stand example_started = (Ret tt, g)
         ∧ phase g = ROUND_OVER
         ∧ dealerHand g = [mkCard 3 0; mkCard 4 0; mkCard 5 0; mkCard 6 0]
         ∧ map result (playerHands g) = [DEALER_WINS].
Proof.
  repeat (split; [vm_compute; reflexivity|]).
  eexists. split; [vm_compute; reflexivity|]. repeat split.
Qed.

Lemma example_started_reachable : reachable example_started.
Proof.
  apply (reachable_call example_new (CallStartRound (fun _ => 0) 10)
           (startRound (fun _ => 0) 10 example_new).1).
  - apply (reachable_new (fun k => k) (mkPartial None None None)
             (constructor (fun k => k) (mkPartial None None None)).1).
    apply surjective_pairing.
  - apply surjective_pairing.
Qed.

(** C6, the claim as stated fails: in the reachable PLAYER_TURN state of the
    example a bet of zero raises nothing; [startRound(0)] returns
    normally. *)
Lemma startRound_zero_bet_player_turn :
  reachable example_started
  ∧ phase example_started = PLAYER_TURN
  ∧ startRound (fun _ => 0) 0 example_started = (Ret tt, example_started).
Proof.
  split; [apply example_started_reachable|].
  split; vm_compute; reflexivity.
Qed.

Lemma startRound_guards_witness :
  startRound (fun _ => 0) 10 example_three_cards = (Ret tt, example_three_cards)
  ∧ startRound (fun _ => 0) 0 example_betting
    = (Throw (Error "Bet amount must be positive."), example_betting).
Proof.
  split.
  - apply (proj1 (startRound_guards _ example_three_cards _)).
    left; reflexivity.
  - apply (proj2 (startRound_guards _ example_betting _)).
    + left; reflexivity.
    + discriminate.
Defined.

Lemma illegal_action_noop_witness :
  doubleDown example_three_cards = (Ret tt, example_three_cards)
  ∧ split example_started = (Ret tt, example_started).
Proof.
  split.
  - apply (illegal_action_noop example_three_cards [HIT; STAND] DOUBLE_DOWN).
    + reflexivity.
    + by_evaluation.
  - apply (illegal_action_noop example_started [HIT; STAND; DOUBLE_DOWN] SPLIT).
    + vm_compute; reflexivity.
    + by_evaluation.
Defined.

Lemma getAvailableActions_spec_witness :
  getAvailableActions example_betting = Ret []
  ∧ ∃ actions, getAvailableActions example_pair = Ret actions
               ∧ DOUBLE_DOWN ∈ actions ∧ SPLIT ∈ actions.
Proof.
  split.
  - apply (proj1 (getAvailableActions_spec example_betting)). discriminate.
  - destruct (proj1 (proj2 (getAvailableActions_spec example_pair))
                _ eq_refl eq_refl)
      as (actions & Ha & _ & _ & Hd & Hs & _).
    exists actions. split; [exact Ha|]. split.
    + apply Hd. reflexivity.
    + apply Hs. eexists _, _. split; reflexivity.
Defined.

(** ** Splitting *)

Lemma readHand_Some g i prop hand :
  playerHands g !! i = Some hand → readHand i prop g = (Ret hand, g).
Proof. intros H. unfold readHand. by rewrite H. Qed.

Lemma modifyHand_Some g i prop f hand :
  playerHands g !! i = Some hand →
  modifyHand i prop f g
  = (Ret tt, set_playerHands (<[i := f hand]> (playerHands g)) g).
Proof. intros H. unfold modifyHand. by rewrite H. Qed.

(** Inserting behind position [i] of an array whose element [i] was just
    replaced. *)
Lemma splice_insert_after {A} (l : list A) i x y :
  i < length l →
  splice_insert (i + 1) y (<[i := x]> l) = take i l ++ x :: y :: drop (S i) l.
Proof.
  intros Hi. unfold splice_insert.
  rewrite (insert_take_drop l i x Hi).
  replace (i + 1) with (length (take i l) + 1) at 1 2 by (rewrite length_take; lia).
  rewrite take_app_add', drop_app_add' by reflexivity.
  simpl. rewrite drop_0, take_0. by rewrite <- app_assoc.
Qed.

(** What a legal [split()] does when the shoe holds two cards: [card1] goes
    to the original hand, [card2] to the new one. *)
Lemma split_legal g actions hand c1 c2 card1 card2 rest :
  getAvailableActions g = Ret actions → SPLIT ∈ actions →
  getActiveHand g = Some hand → cards hand = [c1; c2] →
  deck g = rest ++ [card2; card1] →
  split g =
  (Ret tt,
   set_playerHands
     (take (activeHandIndex g) (playerHands g)
      ++ mkHand [c1; card1] (bet hand)
                (if (value (getHandValue [c1; card1]) =? 21)%Z
                 then STOOD else status hand)
                (result hand)
      :: mkHand [c2; card2] (bet hand) ACTIVE PENDING
      :: drop (S (activeHandIndex g)) (playerHands g))
     (set_deck rest g)).
Proof.
  intros Hacts Hin Hh Hc Hd.
  remember (value (getHandValue [c1; card1]) =? 21)%Z as is21 eqn:E21.
  destruct g as [d hands dealer i ph opts]. unfold getActiveHand in Hh. simpl in Hh, Hd |- *.
  subst d.
  pose proof (lookup_lt_Some _ _ _ Hh) as Hi.
  unfold split.
  rewrite (bind_Ret _ _ _ _ _ (canPerformAction_Ret _ actions SPLIT Hacts)).
  rewrite (bool_decide_eq_true_2 _ Hin). simpl.
  unfold bind at 1, gets at 1. simpl.
  erewrite bind_Ret by (by apply readHand_Some).
  rewrite Hc. simpl.
  erewrite bind_Ret by (by apply modifyHand_Some).
  erewrite bind_Ret by (apply (dealCard_top _ card1 (rest ++ [card2])); simpl; by rewrite <- app_assoc).
  erewrite bind_Ret by (apply modifyHand_Some; simpl; by apply list_lookup_insert_eq).
  simpl. rewrite list_insert_insert_eq.
  erewrite bind_Ret by (by apply (dealCard_top _ card2 rest)).
  unfold bind at 1, modify at 1. simpl.
  rewrite splice_insert_after by assumption.
  assert ((take i hands ++ pushCard card1 (set_cards [c1] hand)
           :: pushCard card2 (mkHand [c2] (bet hand) ACTIVE PENDING)
           :: drop (S i) hands) !! i = Some (pushCard card1 (set_cards [c1] hand))) as Hl.
  { rewrite lookup_app_r by (rewrite length_take; lia).
    rewrite length_take. replace (i - i `min` length hands) with 0 by lia. reflexivity. }
  erewrite bind_Ret by (apply readHand_Some; simpl; exact Hl).
  change (cards (pushCard card1 (set_cards [c1] hand))) with [c1; card1].
  rewrite <- E21. clear E21.
  destruct is21.
  - erewrite modifyHand_Some by (simpl; exact Hl). simpl.
    f_equal. unfold set_playerHands, set_deck; simpl. f_equal.
    rewrite insert_app_r_alt by (rewrite length_take; lia).
    rewrite length_take. replace (i - i `min` length hands) with 0 by lia. reflexivity.
  - reflexivity.
Qed.

(** SPLIT is legal only in PLAYER_TURN on an active hand of two cards of
    equal counting value. *)
Lemma legal_split_hand g actions :
  getAvailableActions g = Ret actions → SPLIT ∈ actions →
  phase g = PLAYER_TURN
  ∧ ∃ hand c1 c2, getActiveHand g = Some hand ∧ cards hand = [c1; c2]
                  ∧ Z.min (rank c1) 10 = Z.min (rank c2) 10.
Proof.
  intros Ha Hin.
  destruct (getAvailableActions_elem g actions SPLIT Ha Hin) as [Hp [hand Hh]].
  split; [exact Hp|]. exists hand.
  rewrite (getAvailableActions_player_turn g hand Hp Hh) in Ha.
  injection Ha as <-.
  destruct (length (cards hand) =? 2); [|revert Hin; no_such_action].
  destruct (canSplit hand) eqn:Ec; [|revert Hin; no_such_action].
  apply canSplit_spec in Ec as (c1 & c2 & Hc & Hm). eauto.
Qed.


(** Past the legality check of [split()] the [pop] of the active hand's
    cards is defined. *)
Lemma split_pop_defined g actions :
  getAvailableActions g = Ret actions → SPLIT ∈ actions →
  ∃ hand card rest,
    getActiveHand g = Some hand ∧ array_pop (cards hand) = Some (card, rest).
Proof.
  intros Ha Hin.
  destruct (legal_split_hand g actions Ha Hin) as (_ & hand & c1 & c2 & Hh & Hc & _).
  exists hand, c2, [c1]. split; [exact Hh|]. by rewrite Hc.
Qed.



(** ** Settlement *)

Lemma evaluateResults_fields g :
  evaluateResults g =
  (Ret tt,
   set_phase ROUND_OVER
     (set_playerHands
        (map (settleHand (value (getHandValue (dealerHand g)))
                         ((value (getHandValue (dealerHand g)) =? 21)%Z
                          && (length (dealerHand g) =? 2)))
             (playerHands g)) g)).
Proof. reflexivity. Qed.

Lemma settleHand_fields d bj hand :
  cards (settleHand d bj hand) = cards hand
  ∧ bet (settleHand d bj hand) = bet hand
  ∧ status (settleHand d bj hand) = status hand.
Proof.
  unfold settleHand. repeat case_match; done.
Qed.

(** C8: [evaluateResults] always returns, leaves the phase ROUND_OVER and
    the dealer hand alone, and gives each player hand, whatever the other
    hands are, a result that depends on that hand and the dealer hand only:
    DEALER_WINS on BUST; on BLACKJACK, PUSH when the dealer holds a two-card
    21 and PLAYER_WINS otherwise; on any other status PLAYER_WINS when the
    dealer total exceeds 21 or the player total exceeds it, else
    DEALER_WINS when the player total is smaller, else PUSH.  Cards, bet
    and status of the hand are untouched. *)
Theorem evaluateResults_spec (g : BlackjackGame) :
  ∃ g', evaluateResults g = (Ret tt, g')
    ∧ phase g' = ROUND_OVER
    ∧ dealerHand g' = dealerHand g
    ∧ length (playerHands g') = length (playerHands g)
    ∧ ∀ i hand, playerHands g !! i = Some hand →
        ∃ hand', playerHands g' !! i = Some hand'
          ∧ cards hand' = cards hand ∧ bet hand' = bet hand
          ∧ status hand' = status hand
          ∧ let dealerTotal := value (getHandValue (dealerHand g)) in
            let playerTotal := value (getHandValue (cards hand)) in
            (status hand = BUST → result hand' = DEALER_WINS)
            ∧ (status hand = BLACKJACK →
               (dealerTotal = 21%Z ∧ length (dealerHand g) = 2 → result hand' = PUSH)
               ∧ (¬ (dealerTotal = 21%Z ∧ length (dealerHand g) = 2) →
                  result hand' = PLAYER_WINS))
            ∧ (status hand ≠ BUST → status hand ≠ BLACKJACK →
               ((21 < dealerTotal)%Z ∨ (dealerTotal < playerTotal)%Z →
                result hand' = PLAYER_WINS)
               ∧ ((dealerTotal <= 21)%Z → (playerTotal < dealerTotal)%Z →
                  result hand' = DEALER_WINS)
               ∧ ((dealerTotal <= 21)%Z → playerTotal = dealerTotal →
                  result hand' = PUSH)).
Proof.
  eexists. split; [apply evaluateResults_fields|].
  split; [reflexivity|]. split; [reflexivity|].
  split; [simpl; apply length_map|].
  intros i hand Hh. eexists. simpl.
  split; [by rewrite list_lookup_fmap, Hh|].
  pose proof (settleHand_fields (value (getHandValue (dealerHand g)))
    ((value (getHandValue (dealerHand g)) =? 21)%Z && (length (dealerHand g) =? 2))
    hand) as (Hc & Hb & Hs).
  split; [exact Hc|]. split; [exact Hb|]. split; [exact Hs|].
  unfold settleHand.
  set (d := value (getHandValue (dealerHand g))).
  set (p := value (getHandValue (cards hand))).
  split; [by intros ->|]. split.
  - intros ->. split.
    + intros [H21 Hl]. apply Z.eqb_eq in H21. apply Nat.eqb_eq in Hl.
      by rewrite H21, Hl.
    + intros Hn. destruct ((d =? 21)%Z && (length (dealerHand g) =? 2)) eqn:E; [|done].
      apply andb_true_iff in E as [H21%Z.eqb_eq Hl%Nat.eqb_eq]. tauto.
  - intros Hnb Hnj.
    assert (result (if (21 <? d)%Z || (d <? p)%Z then set_result PLAYER_WINS hand
                    else if (p <? d)%Z then set_result DEALER_WINS hand
                         else set_result PUSH hand)
            = if (21 <? d)%Z || (d <? p)%Z then PLAYER_WINS
              else if (p <? d)%Z then DEALER_WINS else PUSH) as Hr
      by (repeat case_match; done).
    destruct (status hand); try done; rewrite Hr; clear Hr;
      destruct (Z.ltb_spec 21 d), (Z.ltb_spec d p), (Z.ltb_spec p d);
      simpl; repeat split; intros; try reflexivity; lia.
Qed.

Lemma evaluateResults_spec_witness :
  ∃ g' hand', evaluateResults example_finished = (Ret tt, g')
              ∧ playerHands g' !! 0 = Some hand'
              ∧ result hand' = DEALER_WINS.
Proof.
  destruct (evaluateResults_spec example_finished)
    as (g' & He & _ & _ & _ & Hall).
  destruct (Hall 0 _ eq_refl) as (hand' & Hl & _ & _ & _ & Hbust & _).
  exists g', hand'. split; [exact He|]. split; [exact Hl|].
  apply Hbust. reflexivity.
Defined.

(** The three hands of the example against the dealer's 17. *)
Example evaluateResults_example :
  ∃ g', evaluateResults example_finished = (Ret tt, g')
        ∧ map result (playerHands g') = [DEALER_WINS; PLAYER_WINS; PLAYER_WINS].
Proof. eexists. split; [apply evaluateResults_fields | reflexivity]. Qed.

(** ** What the legal actions depend on *)




(** What a legal [hit()] does on a shoe that is not empty: the top card
    goes to the active hand; on a total above 21 the hand is BUST and the
    turn moves on. *)
Lemma hit_legal g hand card rest :
  phase g = PLAYER_TURN → getActiveHand g = Some hand →
  deck g = rest ++ [card] →
  hit g =
  let g1 := set_playerHands
              (<[activeHandIndex g := pushCard card hand]> (playerHands g))
              (set_deck rest g) in
  if (21 <? value (getHandValue (cards hand ++ [card])))%Z
  then moveToNextHandOrResolve
         (set_playerHands
            (<[activeHandIndex g := set_status BUST (pushCard card hand)]>
               (playerHands g)) g1)
  else (Ret tt, g1).
Proof.
  intros Hp Hh Hd.
  pose proof (getAvailableActions_player_turn g hand Hp Hh) as Ha.
  destruct g as [d hands dealer i ph opts]. unfold getActiveHand in Hh.
  simpl in Hp, Hh, Hd |- *. subst d ph.
  pose proof (lookup_lt_Some _ _ _ Hh) as Hi.
  unfold hit.
  rewrite (bind_Ret _ _ _ _ _ (canPerformAction_Ret _ _ HIT Ha)).
  assert (bool_decide (HIT ∈ (if length (cards hand) =? 2
       then if canSplit hand then [HIT; STAND; DOUBLE_DOWN; SPLIT]
            else [HIT; STAND; DOUBLE_DOWN]
       else [HIT; STAND])) = true) as ->
    by (apply bool_decide_eq_true_2; repeat case_match; by_evaluation).
  simpl.
  unfold bind at 1, gets at 1. simpl.
  erewrite bind_Ret by (by apply readHand_Some).
  erewrite bind_Ret by (by apply (dealCard_top _ card rest)).
  erewrite bind_Ret by (by apply modifyHand_Some).
  erewrite bind_Ret by (apply readHand_Some; simpl; by apply list_lookup_insert_eq).
  change (cards (pushCard card hand)) with (cards hand ++ [card]).
  destruct (21 <? value (getHandValue (cards hand ++ [card])))%Z; [|reflexivity].
  erewrite bind_Ret by (apply modifyHand_Some; simpl; by apply list_lookup_insert_eq).
  simpl. by rewrite list_insert_insert_eq.
Qed.







(** ** Snapshots and the objects they share with the engine *)

Lemma deref_cons (σ : Refs.store) l ls :
  Refs.deref σ (l :: ls)
  = match σ !! l with Some card => card :: Refs.deref σ ls | None => Refs.deref σ ls end.
Proof. reflexivity. Qed.

Lemma deref_cons_Some (σ : Refs.store) l ls card :
  σ !! l = Some card → Refs.deref σ (l :: ls) = card :: Refs.deref σ ls.
Proof. intros H. unfold Refs.deref. simpl. by rewrite H. Qed.

(** Allocation does not disturb what allocated addresses hold. *)
Lemma deref_app (σ τ : Refs.store) ls :
  Forall (fun l => l < length σ) ls → Refs.deref (σ ++ τ) ls = Refs.deref σ ls.
Proof.
  induction ls as [|l ls IH]; intros Hall; [reflexivity|].
  inversion Hall as [|? ? Hl Hls]; subst.
  destruct (lookup_lt_is_Some_2 σ l Hl) as [card Hc].
  rewrite (deref_cons_Some σ l ls card Hc).
  rewrite (deref_cons_Some (σ ++ τ) l ls card); [by rewrite IH|].
  by rewrite lookup_app_l.
Qed.

(** Neither does a write to another address. *)
Lemma deref_writeCard (σ : Refs.store) l f ls :
  l ∉ ls → Refs.deref (Refs.writeCard l f σ) ls = Refs.deref σ ls.
Proof.
  intros Hn. unfold Refs.writeCard. destruct (σ !! l) as [card|]; [|reflexivity].
  induction ls as [|l' ls IH]; [reflexivity|].
  apply not_elem_of_cons in Hn as [Hne Hn].
  rewrite !deref_cons, list_lookup_insert_ne by done.
  by rewrite (IH Hn).
Qed.

(** [Refs.copyCards] allocates one new object per card, in order, each with
    the fields of the object it copies. *)
Lemma copyCards_spec ls : ∀ σ : Refs.store,
  Forall (fun l => l < length σ) ls →
  Refs.copyCards σ ls = (seq (length σ) (length ls), σ ++ Refs.deref σ ls)
  ∧ Refs.deref (σ ++ Refs.deref σ ls) (seq (length σ) (length ls)) = Refs.deref σ ls.
Proof.
  induction ls as [|l ls IH]; intros σ Hall.
  - simpl. by rewrite app_nil_r.
  - inversion Hall as [|? ? Hl Hls]; subst.
    destruct (lookup_lt_is_Some_2 σ l Hl) as [card Hc].
    assert (Forall (λ l0, l0 < length (σ ++ [card])) ls) as Hls'.
    { eapply Forall_impl; [exact Hls|]. intros x Hx. simpl in Hx |- *. rewrite length_app. lia. }
    destruct (IH (σ ++ [card]) Hls') as [Hcopy Hview].
    rewrite (deref_app σ [card] ls Hls) in Hcopy, Hview.
    rewrite length_app in Hcopy, Hview. simpl in Hcopy, Hview.
    rewrite Nat.add_1_r in Hcopy, Hview.
    rewrite <- app_assoc in Hcopy, Hview. simpl in Hcopy, Hview.
    rewrite (deref_cons_Some σ l ls card Hc).
    split.
    + simpl. unfold Refs.copyCard. rewrite Hc, Hcopy. reflexivity.
    + change (seq (length σ) (length (l :: ls)))
        with (length σ :: seq (S (length σ)) (length ls)).
      erewrite deref_cons_Some; [by rewrite Hview|].
      rewrite lookup_app_r by lia. by rewrite Nat.sub_diag.
Qed.

Lemma viewHand_app (σ τ : Refs.store) h :
  Forall (fun l => l < length σ) (Refs.cardRefs h) →
  Refs.viewHand (σ ++ τ) h = Refs.viewHand σ h.
Proof. intros H. unfold Refs.viewHand. by rewrite deref_app. Qed.

Lemma Forall_lt_app (σ τ : Refs.store) ls :
  Forall (fun l => l < length σ) ls →
  Forall (fun l => l < length (σ ++ τ)) ls.
Proof.
  intros H. eapply Forall_impl; [exact H|].
  intros l Hl. simpl in Hl |- *. rewrite length_app. lia.
Qed.

Lemma deref_length (σ : Refs.store) ls :
  Forall (fun l => l < length σ) ls → length (Refs.deref σ ls) = length ls.
Proof.
  induction ls as [|l ls IH]; intros Hall; [reflexivity|].
  inversion Hall as [|? ? Hl Hls]; subst.
  destruct (lookup_lt_is_Some_2 σ l Hl) as [card Hc].
  rewrite (deref_cons_Some σ l ls card Hc). simpl. by rewrite IH.
Qed.

(** The addresses in [seq (length σ) n] are the [n] next ones. *)
Lemma Forall_seq_fresh (σ τ : Refs.store) n :
  n = length τ →
  Forall (fun l => length σ ≤ l < length (σ ++ τ)) (seq (length σ) n).
Proof.
  intros ->. apply Forall_seq. intros j Hj. rewrite length_app. lia.
Qed.

(** The JSON round trip of the player hands: every Card object of the
    copy is new, and the copy reads as the original. *)
Lemma copyHands_spec hs : ∀ σ : Refs.store,
  Forall (fun h => Forall (fun l => l < length σ) (Refs.cardRefs h)) hs →
  ∃ hs' τ,
    Refs.copyHands σ hs = (hs', σ ++ τ)
    ∧ map (Refs.viewHand (σ ++ τ)) hs' = map (Refs.viewHand σ) hs
    ∧ Forall (fun h' =>
                Forall (fun l => length σ ≤ l < length (σ ++ τ)) (Refs.cardRefs h'))
             hs'.
Proof.
  induction hs as [|h hs IH]; intros σ Hall.
  - exists [], []. simpl. by rewrite app_nil_r.
  - inversion Hall as [|? ? Hh Hhs]; subst.
    destruct (copyCards_spec (Refs.cardRefs h) σ Hh) as [Hcopy Hview].
    set (τ1 := Refs.deref σ (Refs.cardRefs h)) in *.
    assert (Forall (fun h => Forall (fun l => l < length (σ ++ τ1)) (Refs.cardRefs h)) hs)
      as Hhs'.
    { eapply Forall_impl; [exact Hhs|]. intros x. apply Forall_lt_app. }
    destruct (IH (σ ++ τ1) Hhs') as (hs' & τ2 & Hcopies & Hviews & Hfresh).
    eexists _, (τ1 ++ τ2). rewrite app_assoc.
    split; [|split].
    + simpl. unfold Refs.copyHand. rewrite Hcopy, Hcopies. reflexivity.
    + simpl. rewrite Hviews. f_equal.
      * rewrite viewHand_app.
        -- unfold Refs.viewHand. simpl. by rewrite Hview.
        -- simpl. eapply Forall_impl; [apply (Forall_seq_fresh σ τ1)|].
           ++ symmetry. by apply deref_length.
           ++ intros l Hl. simpl in Hl |- *. lia.
      * apply map_ext_Forall. eapply Forall_impl; [exact Hhs|].
        intros x Hx. by apply viewHand_app.
    + constructor.
      * simpl. eapply Forall_impl; [apply (Forall_seq_fresh σ τ1)|].
        -- symmetry. by apply deref_length.
        -- intros l Hl. simpl in Hl |- *. rewrite length_app in Hl |- *.
           rewrite length_app. lia.
      * eapply Forall_impl; [exact Hfresh|]. intros h' Hh'. simpl in Hh' |- *.
        eapply Forall_impl; [exact Hh'|]. intros l Hl. simpl in Hl |- *.
        rewrite length_app in Hl. lia.
Qed.

Lemma deref_take (σ : Refs.store) ls n :
  Forall (fun l => l < length σ) ls →
  Refs.deref σ (take n ls) = take n (Refs.deref σ ls).
Proof.
  revert n. induction ls as [|l ls IH]; intros n Hall; [by destruct n|].
  inversion Hall as [|? ? Hl Hls]; subst.
  destruct (lookup_lt_is_Some_2 σ l Hl) as [card Hc].
  destruct n as [|n]; [reflexivity|].
  change (take (S n) (l :: ls)) with (l :: take n ls).
  rewrite !(deref_cons_Some σ l _ card Hc).
  rewrite IH by assumption. reflexivity.
Qed.

Lemma viewGame_app (σ τ : Refs.store) g :
  Refs.wfGame σ g → Refs.viewGame (σ ++ τ) g = Refs.viewGame σ g.
Proof.
  intros (Hd & Hh & Hdl). unfold Refs.viewGame.
  rewrite !deref_app by assumption. f_equal.
  apply map_ext_Forall. eapply Forall_impl; [exact Hh|].
  intros h Hl. by apply viewHand_app.
Qed.

(** The snapshot on references reads as the snapshot on values, and
    building it leaves the engine's own view of its fields alone. *)
Lemma getState_refines (σ : Refs.store) g :
  Refs.wfGame σ g →
  Refs.viewGame (Refs.getState σ g).2 g = Refs.viewGame σ g
  ∧ match (Refs.getState σ g).1 with
    | Ret snap =>
      getState (Refs.viewGame σ g) = Ret (Refs.viewSnapshot (Refs.getState σ g).2 snap)
    | Throw e => getState (Refs.viewGame σ g) = Throw e
    end.
Proof.
  intros Hwf. pose proof Hwf as (Hd & Hh & Hdl).
  destruct (copyHands_spec (Refs.handRefs g) σ Hh) as (hs' & τ & Hcopy & Hview & _).
  unfold Refs.getState. rewrite Hcopy.
  rewrite (viewGame_app σ τ g Hwf).
  unfold getState.
  destruct (upCardValue (Refs.viewGame σ g)) as [up|e];
    [|split; [by apply viewGame_app | reflexivity]].
  destruct (getAvailableActions (Refs.viewGame σ g)) as [actions|e];
    [|split; [by apply viewGame_app | reflexivity]].
  simpl. split; [by apply viewGame_app|].
  unfold Refs.viewSnapshot. simpl. rewrite Hview.
  rewrite (deref_length σ _ Hd). do 2 f_equal.
  unfold visibleDealerHand. simpl.
  destruct (Refs.currentPhase g); rewrite ?deref_take by (by apply Forall_lt_app);
    by rewrite deref_app.
Qed.

(** X22: in a well-formed heap, writing to a Card object of the player
    hands of the snapshot [getState()] returned does not reach the engine:
    those objects are the copies. *)
Lemma snapshot_hands_not_shared (σ : Refs.store) g snap σ' :
  Refs.wfGame σ g →
  Refs.getState σ g = (Ret snap, σ') →
  ∀ h l f, h ∈ Refs.snapHands snap → l ∈ Refs.cardRefs h →
    Refs.viewGame (Refs.writeCard l f σ') g = Refs.viewGame σ' g.
Proof.
  intros Hwf. pose proof Hwf as (Hd & Hh & Hdl).
  destruct (copyHands_spec (Refs.handRefs g) σ Hh) as (hs' & τ & Hcopy & _ & Hfresh).
  unfold Refs.getState. rewrite Hcopy.
  destruct (upCardValue _); [|discriminate].
  destruct (getAvailableActions _); [|discriminate].
  intros [= <- <-] h l f Hin Hl. simpl in Hin.
  rewrite Forall_forall in Hfresh. specialize (Hfresh h Hin).
  rewrite Forall_forall in Hfresh. specialize (Hfresh l Hl).
  assert (∀ ls, Forall (fun l' => l' < length σ) ls → l ∉ ls) as Hnot.
  { intros ls Hls Hl'. rewrite Forall_forall in Hls. specialize (Hls l Hl'). lia. }
  unfold Refs.viewGame. rewrite !deref_writeCard by auto. f_equal.
  apply map_ext_Forall. eapply Forall_impl; [exact Hh|].
  intros h0 Hh0. unfold Refs.viewHand. by rewrite deref_writeCard by auto.
Qed.

(** The snapshot's dealer hand starts with the very Card object the
    engine's dealer hand starts with, and a write to that object is a
    write to the engine's dealer card. *)
Lemma snapshot_dealer_shared (σ : Refs.store) g snap σ' :
  Refs.wfGame σ g →
  Refs.getState σ g = (Ret snap, σ') →
  ∃ l card, Refs.snapDealer snap !! 0 = Some l
    ∧ Refs.dealerRefs g !! 0 = Some l
    ∧ dealerHand (Refs.viewGame σ' g) !! 0 = Some card
    ∧ ∀ f, dealerHand (Refs.viewGame (Refs.writeCard l f σ') g) !! 0
           = Some (f card).
Proof.
  intros Hwf. pose proof Hwf as (Hd & Hh & Hdl).
  destruct (copyHands_spec (Refs.handRefs g) σ Hh) as (hs' & τ & Hcopy & _ & _).
  unfold Refs.getState. rewrite Hcopy.
  destruct (upCardValue _) eqn:Hup; [|discriminate].
  destruct (getAvailableActions _); [|discriminate].
  intros [= <- <-]. simpl.
  unfold upCardValue in Hup. simpl in Hup.
  destruct (Refs.dealerRefs g) as [|l ls] eqn:Hrefs; [discriminate|].
  inversion Hdl as [|? ? Hl Hls]; subst.
  destruct (lookup_lt_is_Some_2 σ l Hl) as [card Hc].
  assert ((σ ++ τ) !! l = Some card) as Hc' by (by rewrite lookup_app_l).
  exists l, card.
  split; [by destruct (Refs.currentPhase g)|]. split; [reflexivity|].
  split; [by rewrite (deref_cons_Some _ l ls card Hc')|].
  intros f. unfold Refs.writeCard. rewrite Hc'.
  erewrite deref_cons_Some; [reflexivity|].
  apply list_lookup_insert_eq. rewrite length_app. lia.
Qed.

(** C4, a defect of the code: on an engine whose round is over and whose
    dealer holds an Ace and a 6, [getState()] returns a snapshot whose
    [dealerHand[0]] is the engine's own Card object: the player-hand cards
    of the snapshot are new objects, but after [snapshot.dealerHand[0].rank
    = 10] the engine's dealer hand is 10, 6 and worth 16 instead of 17. *)
Theorem getState_shares_dealer_cards :
  ∃ snap σ' l,
    Refs.getState example_store example_refs = (Ret snap, σ')
    ∧ Refs.snapDealer snap !! 0 = Some l
    ∧ Refs.dealerRefs example_refs !! 0 = Some l
    ∧ Forall (fun h => Forall (fun l' => length example_store ≤ l') (Refs.cardRefs h))
             (Refs.snapHands snap)
    ∧ dealerHand (Refs.viewGame σ' example_refs) = [mkCard 1 0; mkCard 6 1]
    ∧ dealerHand (Refs.viewGame (Refs.writeRank l 10 σ') example_refs)
      = [mkCard 10 0; mkCard 6 1]
    ∧ value (getHandValue (dealerHand (Refs.viewGame σ' example_refs))) = 17%Z
    ∧ value (getHandValue
               (dealerHand (Refs.viewGame (Refs.writeRank l 10 σ') example_refs)))
      = 16%Z.
Proof.
  eexists _, _, 0. split; [reflexivity|].
  split; [reflexivity|]. split; [reflexivity|].
  split; [repeat constructor|].
  repeat split.
Qed.

(** The same in PLAYER_TURN, where the snapshot shows the up card only. *)
Example getState_shares_up_card :
  ∃ snap σ',
    Refs.getState example_store example_refs_playing = (Ret snap, σ')
    ∧ Refs.snapDealer snap = [0]
    ∧ Refs.dealerRefs example_refs_playing = [0; 1].
Proof. eexists _, _. repeat split. Qed.

(** ** An invariant of the reachable states *)

(** The dealer's loop touches the deck and the dealer hand only. *)
Lemma dealerLoop_phase n : ∀ g o g',
  dealerLoop n g = (o, g') → phase g' = phase g ∧ playerHands g' = playerHands g
                             ∧ activeHandIndex g' = activeHandIndex g.
Proof.
  induction n as [|n IH]; intros g o g'; simpl.
  - by intros [= <- <-].
  - unfold bind, gets, dealCard, modify. simpl.
    destruct (dealerMustDraw _ _); [|by intros [= <- <-]].
    destruct (array_pop (deck g)) as [[c r]|]; [|by intros [= <- <-]].
    intros H. by apply IH in H.
Qed.

Lemma resolveDealerTurn_phase g o g' :
  resolveDealerTurn g = (o, g') → phase g' ≠ PLAYER_TURN.
Proof.
  unfold resolveDealerTurn, bind at 1, modify at 1.
  unfold bind at 1, gets at 1. unfold bind at 1.
  destruct (dealerLoop _ _) as [[[]|e] g1] eqn:E;
    apply dealerLoop_phase in E as (Hp & _ & _); simpl in Hp.
  - rewrite evaluateResults_fields. intros [= <- <-]. simpl. discriminate.
  - intros [= <- <-]. rewrite Hp. discriminate.
Qed.

Lemma findIndex_from_lt {A} (p : A → nat → bool) l : ∀ k i,
  findIndex_from p l k = Some i → i < k + length l.
Proof.
  induction l as [|x l IH]; intros k i; simpl; [discriminate|].
  destruct (p x k).
  - intros [= <-]. lia.
  - intros H%IH. lia.
Qed.

Lemma moveToNextHandOrResolve_defined g o g' :
  moveToNextHandOrResolve g = (o, g') → activeHandDefined g'.
Proof.
  unfold moveToNextHandOrResolve, bind, gets. simpl.
  destruct (findIndex _ _) as [i|] eqn:E.
  - intros [= <- <-] _. simpl. apply findIndex_from_lt in E. lia.
  - intros H%resolveDealerTurn_phase Hp. done.
Qed.

(** Running a method body: every bind is a case on an outcome. *)
Ltac run_method :=
  repeat (progress (unfold bind, gets, lift, ret, throw, modify, readHand,
                      modifyHand, dealCard, canPerformAction in *; simpl in * ));
  repeat (case_match; simplify_eq; simpl in * ).

Ltac close_defined :=
  first
    [ assumption
    | by eauto using moveToNextHandOrResolve_defined
    | match goal with
      | H : resolveDealerTurn _ = _ |- _ =>
        apply resolveDealerTurn_phase in H; intros ?; done
      end
    | unfold activeHandDefined in *; simpl in *;
      rewrite ?length_insert; auto ].

Lemma hit_defined g o g' :
  activeHandDefined g → hit g = (o, g') → activeHandDefined g'.
Proof.
  intros Hg H. unfold hit in H. run_method; close_defined.
Qed.

Lemma stand_defined g o g' :
  activeHandDefined g → stand g = (o, g') → activeHandDefined g'.
Proof.
  intros Hg H. unfold stand in H. run_method; close_defined.
Qed.

Lemma doubleDown_defined g o g' :
  activeHandDefined g → doubleDown g = (o, g') → activeHandDefined g'.
Proof.
  intros Hg H. unfold doubleDown in H. run_method; close_defined.
Qed.

Lemma split_defined g o g' :
  activeHandDefined g → split g = (o, g') → activeHandDefined g'.
Proof.
  intros Hg H. unfold split in H. run_method; try close_defined.
  all: unfold activeHandDefined, splice_insert in *; simpl in *; intros Hp;
    specialize (Hg Hp);
    rewrite ?length_app, ?length_take, ?length_insert; simpl;
    rewrite ?length_drop, ?length_insert; lia.
Qed.

Lemma resetGame_defined rnd g o g' :
  resetGame rnd g = (o, g') → activeHandDefined g'.
Proof. rewrite resetGame_fields. by intros [= <- <-]. Qed.

Lemma startRound_defined rnd b g o g' :
  activeHandDefined g → startRound rnd b g = (o, g') → activeHandDefined g'.
Proof.
  intros Hg H. unfold startRound in H. run_method; try close_defined.
  all: try (intros Hp; rewrite Hp in *; discriminate).
Qed.

(** In every reachable state in PLAYER_TURN there is an active hand. *)
Theorem reachable_activeHandDefined g : reachable g → activeHandDefined g.
Proof.
  induction 1 as [rnd o out g Hnew | g c out g' _ IH Hcall].
  - unfold constructor in Hnew. by apply resetGame_defined in Hnew.
  - destruct c; simpl in Hcall;
      eauto using resetGame_defined, startRound_defined, hit_defined,
        stand_defined, doubleDown_defined, split_defined.
Qed.

(** So [getAvailableActions] returns in every reachable state. *)
Lemma reachable_actions_defined g :
  reachable g → ∃ actions, getAvailableActions g = Ret actions.
Proof.
  intros Hr%reachable_activeHandDefined. unfold getAvailableActions.
  destruct (phase g) eqn:Hp; eauto.
  unfold getActiveHand.
  destruct (lookup_lt_is_Some_2 _ _ (Hr Hp)) as [hand ->]. eauto.
Qed.

(** ** The shoe: shuffling and dealing *)

Lemma insert_head_Permutation {A} (l : list A) : ∀ j a y,
  l !! j = Some y → y :: <[j := a]> l ≡ₚ a :: l.
Proof.
  induction l as [|x l IH]; intros j a y Hj; [done|].
  destruct j as [|j]; simpl in *.
  - injection Hj as ->. apply perm_swap.
  - rewrite (perm_swap x y). rewrite (IH j a y Hj). apply perm_swap.
Qed.

Lemma swap_Permutation {A} (l : list A) : ∀ i j, swap i j l ≡ₚ l.
Proof.
  unfold swap. induction l as [|a l IH]; intros i j; [by destruct i, j|].
  destruct i as [|i], j as [|j]; simpl.
  - reflexivity.
  - destruct (l !! j) as [y|] eqn:Hj; [|reflexivity].
    simpl. by apply insert_head_Permutation.
  - destruct (l !! i) as [x|] eqn:Hi; [|reflexivity].
    simpl. by apply insert_head_Permutation.
  - specialize (IH i j).
    destruct (l !! i) as [x|]; [|reflexivity].
    destruct (l !! j) as [y|]; [|reflexivity].
    simpl. by rewrite IH.
Qed.

Lemma shuffle_from_Permutation {T} (rnd : nat → nat) n : ∀ k (array : list T),
  shuffle_from rnd k n array ≡ₚ array.
Proof.
  induction n as [|n IH]; intros k array; simpl; [reflexivity|].
  rewrite IH. apply swap_Permutation.
Qed.

(** X1: whatever values [Math.random] yields, [shuffle] returns a
    permutation of its input: no element lost, none duplicated, the length
    unchanged. *)
Theorem shuffle_Permutation {T} (rnd : nat → nat) (array : list T) :
  shuffle rnd array ≡ₚ array ∧ length (shuffle rnd array) = length array.
Proof.
  assert (shuffle rnd array ≡ₚ array) as Hp by apply shuffle_from_Permutation.
  split; [exact Hp | by rewrite Hp].
Qed.

Lemma oneDeck_NoDup : NoDup oneDeck.
Proof. apply (bool_decide_unpack _). vm_compute. exact I. Qed.

Lemma oneDeck_elem (c : Card) :
  c ∈ oneDeck ↔ (1 <= rank c <= 13)%Z ∧ (0 <= suit c <= 3)%Z.
Proof.
  split.
  - intros H. assert (Forall (fun c => (1 <= rank c <= 13)%Z ∧ (0 <= suit c <= 3)%Z) oneDeck) as Hall.
    { apply (bool_decide_unpack _). vm_compute. exact I. }
    rewrite Forall_forall in Hall. by apply Hall.
  - destruct c as [r s]. simpl. intros [Hr Hs].
    assert (r ∈ ranks) as Hr'.
    { assert (r = 1 ∨ r = 2 ∨ r = 3 ∨ r = 4 ∨ r = 5 ∨ r = 6 ∨ r = 7 ∨ r = 8
              ∨ r = 9 ∨ r = 10 ∨ r = 11 ∨ r = 12 ∨ r = 13)%Z as Hc by lia.
      (repeat destruct Hc as [-> | Hc]; try subst r; by_evaluation). }
    assert (s ∈ suits) as Hs'.
    { assert (s = 0 ∨ s = 1 ∨ s = 2 ∨ s = 3)%Z as Hc by lia.
      (repeat destruct Hc as [-> | Hc]; try subst s; by_evaluation). }
    unfold oneDeck. apply list_elem_of_In. apply in_flat_map. exists s.
    (split; [apply list_elem_of_In; exact Hs'|]).
    apply (in_map (fun rank => mkCard rank s)). (apply list_elem_of_In; exact Hr').
Qed.

Lemma count_occ_decks (c : Card) n :
  count_occ Card_eq_dec (concat (replicate n oneDeck)) c
  = n * count_occ Card_eq_dec oneDeck c.
Proof.
  induction n as [|n IH]; [reflexivity|].
  change (replicate (S n) oneDeck) with (oneDeck :: replicate n oneDeck).
  rewrite concat_cons, count_occ_app, IH. lia.
Qed.

Lemma createNewDeck_Permutation rnd opts :
  createNewDeck rnd opts
  ≡ₚ concat (replicate (Z.to_nat (numberOfDecks opts)) oneDeck).
Proof. apply shuffle_from_Permutation. Qed.

Lemma createNewDeck_length rnd opts :
  length (createNewDeck rnd opts) = 52 * Z.to_nat (numberOfDecks opts).
Proof.
  rewrite createNewDeck_Permutation.
  induction (Z.to_nat (numberOfDecks opts)) as [|n IH]; [reflexivity|].
  change (replicate (S n) oneDeck) with (oneDeck :: replicate n oneDeck).
  rewrite concat_cons, length_app, IH. change (length oneDeck) with 52. lia.
Qed.

(** X2: [createNewDeck] builds [numberOfDecks] standard decks (none when the
    option is zero or negative): 52 cards per deck, every card with a rank
    1..13 and a suit 0..3, and each such card exactly [numberOfDecks]
    times. *)
Theorem createNewDeck_spec (rnd : nat → nat) (opts : GameOptions) :
  let n := Z.to_nat (numberOfDecks opts) in
  let fresh := createNewDeck rnd opts in
  fresh ≡ₚ concat (replicate n oneDeck)
  ∧ length fresh = 52 * n
  ∧ (∀ c, c ∈ fresh → (1 <= rank c <= 13)%Z ∧ (0 <= suit c <= 3)%Z)
  ∧ (∀ c, (1 <= rank c <= 13)%Z → (0 <= suit c <= 3)%Z →
          count_occ Card_eq_dec fresh c = n).
Proof.
  intros n fresh.
  pose proof (createNewDeck_Permutation rnd opts) as Hp. fold n fresh in Hp.
  split; [exact Hp|]. split; [apply createNewDeck_length|]. split.
  - intros c Hc. rewrite Hp in Hc.
    apply list_elem_of_In, in_concat in Hc as (d & Hd & Hcd).
    apply list_elem_of_In, elem_of_replicate_inv in Hd as ->.
    by apply oneDeck_elem, list_elem_of_In.
  - intros c Hr Hs. rewrite (Permutation_count_occ Card_eq_dec) in Hp.
    rewrite Hp, count_occ_decks.
    assert (count_occ Card_eq_dec oneDeck c = 1) as ->; [|lia].
    apply NoDup_count_occ'; [apply NoDup_ListNoDup, oneDeck_NoDup|].
    apply list_elem_of_In, oneDeck_elem. done.
Qed.

(** X3: [dealCard] throws "Deck is empty." on the empty shoe and changes
    nothing; otherwise it returns the last card of the array and leaves
    the shoe one card shorter, the other fields untouched. *)
Theorem dealCard_spec (g : BlackjackGame) :
  (deck g = [] ∧ dealCard g = (Throw (Error "Deck is empty."), g))
  ∨ (∃ card rest,
       deck g = rest ++ [card]
       ∧ dealCard g = (Ret card, set_deck rest g)
       ∧ length (deck g) = S (length rest)).
Proof.
  unfold dealCard. destruct (array_pop (deck g)) as [[card rest]|] eqn:E.
  - right. exists card, rest. pose proof (array_pop_length _ _ _ E).
    apply array_pop_Some in E. done.
  - left. apply array_pop_None in E. by rewrite E.
Qed.

(** ** Hand values, characterised *)

Lemma fold_addCard_totals hand : ∀ sum aces,
  fold_left addCard hand (sum, aces)
  = ((sum + hardTotal hand + 10 * Z.of_nat (countAces hand))%Z,
     aces + countAces hand).
Proof.
  induction hand as [|c hand IH]; intros sum aces.
  - unfold hardTotal, countAces. simpl. f_equal; lia.
  - change (fold_left addCard (c :: hand) (sum, aces))
      with (fold_left addCard hand (addCard (sum, aces) c)).
    destruct (addCard (sum, aces) c) as [sum' aces'] eqn:E.
    rewrite IH. unfold countAces. rewrite filter_cons.
    change (hardTotal (c :: hand)) with (hardValue c + hardTotal hand)%Z.
    unfold addCard in E. unfold hardValue.
    destruct (10 <? rank c)%Z eqn:E10.
    + apply Z.ltb_lt in E10. injection E as <- <-.
      rewrite decide_False by lia. f_equal; lia.
    + destruct (rank c =? 1)%Z eqn:E1; injection E as <- <-.
      * apply Z.eqb_eq in E1. rewrite decide_True by done.
        simpl length. rewrite E1. f_equal; lia.
      * apply Z.eqb_neq in E1. rewrite decide_False by done. f_equal; lia.
Qed.

Lemma hardTotal_ge_aces hand :
  Forall (fun c => 1 <= rank c)%Z hand →
  (Z.of_nat (countAces hand) <= hardTotal hand)%Z
  ∧ (Z.of_nat (length hand) <= hardTotal hand)%Z.
Proof.
  induction 1 as [|c hand Hc _ IH]; [done|].
  unfold countAces in *. rewrite filter_cons. simpl hardTotal. unfold hardValue.
  simpl length.
  destruct (10 <? rank c)%Z eqn:E10;
    [apply Z.ltb_lt in E10 | apply Z.ltb_ge in E10];
    destruct (decide (rank c = 1%Z)); simpl length; lia.
Qed.

Lemma demote_best aces : ∀ hard,
  (Z.of_nat aces <= hard)%Z →
  (demote (hard + 10 * Z.of_nat aces) aces).1
  = (if (0 <? aces)%nat && (hard + 10 <=? 21)%Z then hard + 10 else hard)%Z.
Proof.
  induction aces as [|n IH]; intros hard Hh.
  - simpl. lia.
  - simpl demote.
    destruct (21 <? hard + 10 * Z.of_nat (S n))%Z eqn:E;
      [apply Z.ltb_lt in E | apply Z.ltb_ge in E].
    + replace (hard + 10 * Z.of_nat (S n) - 10)%Z
        with (hard + 10 * Z.of_nat n)%Z by lia.
      rewrite IH by lia.
      destruct n as [|n]; simpl.
      * destruct (Z.leb_spec (hard + 10) 21); lia.
      * reflexivity.
    + simpl. assert (n = 0) as -> by lia.
      destruct (Z.leb_spec (hard + 10) 21); simpl; lia.
Qed.

Lemma getHandValue_hard hand :
  Forall (fun c => 1 <= rank c)%Z hand →
  value (getHandValue hand)
  = (if (0 <? countAces hand)%nat && (hardTotal hand + 10 <=? 21)%Z
     then hardTotal hand + 10 else hardTotal hand)%Z.
Proof.
  intros Hall. destruct (hardTotal_ge_aces hand Hall) as [Ha Hl].
  unfold getHandValue. destruct hand as [|c hand]; [reflexivity|].
  rewrite fold_addCard_totals. simpl "+".
  rewrite Z.add_0_l.
  pose proof (demote_best (countAces (c :: hand)) (hardTotal (c :: hand)) Ha) as Hd.
  destruct (demote _ _) as [sum aces]. simpl in Hd |- *. exact Hd.
Qed.

Lemma getHandValue_ge_length hand :
  Forall (fun c => 1 <= rank c)%Z hand →
  (Z.of_nat (length hand) <= value (getHandValue hand))%Z.
Proof.
  intros Hall. destruct (hardTotal_ge_aces hand Hall) as [Ha Hl].
  rewrite (getHandValue_hard hand Hall).
  destruct (0 <? countAces hand); simpl;
    destruct (Z.leb_spec (hardTotal hand + 10) 21); lia.
Qed.

(** X4: on cards of rank at least 1 the total of [getHandValue] is the
    blackjack value: the hard total plus 10 when the hand holds an Ace and
    that does not exceed 21, the hard total otherwise.  So a hand is above
    21 exactly when its hard total is, and its total is never below its
    number of cards. *)
Theorem getHandValue_best_total (hand : list Card) :
  Forall (fun c => 1 <= rank c)%Z hand →
  value (getHandValue hand)
  = (if (0 <? countAces hand)%nat && (hardTotal hand + 10 <=? 21)%Z
     then hardTotal hand + 10 else hardTotal hand)%Z
  ∧ ((21 < value (getHandValue hand))%Z ↔ (21 < hardTotal hand)%Z)
  ∧ (Z.of_nat (length hand) <= value (getHandValue hand))%Z.
Proof.
  intros Hall. destruct (hardTotal_ge_aces hand Hall) as [Ha Hl].
  split; [by apply getHandValue_hard|].
  rewrite (getHandValue_hard hand Hall).
  destruct (0 <? countAces hand); simpl;
    destruct (Z.leb_spec (hardTotal hand + 10) 21); lia.
Qed.

(** X5: for every card sequence, [getHandValue] never returns
    [isSoft = true] together with a total above 21. *)
Theorem getHandValue_never_soft_bust (hand : list Card) :
  isSoft (getHandValue hand) && (21 <? value (getHandValue hand))%Z = false.
Proof.
  destruct (isSoft (getHandValue hand)) eqn:Hs; [|reflexivity].
  apply getHandValue_soft_le_21 in Hs. simpl. apply Z.ltb_ge. exact Hs.
Qed.

(** ** Dealer resolution, in full *)

Lemma dealerLoop_spec n : ∀ g o g',
  length (deck g) < n →
  dealerLoop n g = (o, g') →
  ∃ drawn,
    deck g = deck g' ++ rev drawn
    ∧ dealerHand g' = dealerHand g ++ drawn
    ∧ playerHands g' = playerHands g
    ∧ activeHandIndex g' = activeHandIndex g
    ∧ phase g' = phase g
    ∧ options g' = options g
    ∧ match o with
      | Ret _ => dealerMustDraw (options g') (getHandValue (dealerHand g')) = false
      | Throw e =>
        e = Error "Deck is empty." ∧ deck g' = []
        ∧ dealerMustDraw (options g') (getHandValue (dealerHand g')) = true
      end.
Proof.
  induction n as [|n IH]; intros g o g' Hn; [lia|].
  simpl. unfold bind at 1, gets at 1. simpl.
  destruct (dealerMustDraw _ _) eqn:Hg.
  - unfold bind at 1, dealCard.
    destruct (array_pop (deck g)) as [[card rest]|] eqn:Hpop.
    + pose proof (array_pop_Some _ _ _ Hpop) as Hd.
      unfold bind at 1, modify. intros Hloop.
      apply IH in Hloop as (drawn & H1 & H2 & H3 & H4 & H5 & H6 & H7);
        [|simpl; apply array_pop_length in Hpop; lia].
      simpl in *. exists (card :: drawn).
      split; [rewrite Hd, H1; simpl; by rewrite <- app_assoc|].
      split; [rewrite H2; unfold array_push; by rewrite <- app_assoc|].
      done.
    + intros [= <- <-]. exists []. apply array_pop_None in Hpop.
      repeat split; simpl; rewrite ?app_nil_r; try reflexivity; assumption.
  - intros [= <- <-]. exists []. by rewrite !app_nil_r.
Qed.

Lemma resolveDealerTurn_spec g o g' :
  resolveDealerTurn g = (o, g') →
  ∃ drawn,
    deck g = deck g' ++ rev drawn
    ∧ dealerHand g' = dealerHand g ++ drawn
    ∧ activeHandIndex g' = activeHandIndex g
    ∧ options g' = options g
    ∧ match o with
      | Ret _ =>
        phase g' = ROUND_OVER
        ∧ dealerMustDraw (options g) (getHandValue (dealerHand g')) = false
        ∧ playerHands g'
          = map (settleHand (value (getHandValue (dealerHand g')))
                   ((value (getHandValue (dealerHand g')) =? 21)%Z
                    && (length (dealerHand g') =? 2)))
                (playerHands g)
      | Throw e =>
        e = Error "Deck is empty." ∧ deck g' = [] ∧ phase g' = DEALER_TURN
        ∧ playerHands g' = playerHands g
        ∧ dealerMustDraw (options g) (getHandValue (dealerHand g')) = true
      end.
Proof.
  unfold resolveDealerTurn.
  rewrite (bind_Ret (modify (set_phase DEALER_TURN)) _ g tt _ eq_refl).
  rewrite (bind_Ret (gets (fun g => length (deck g))) _
             (set_phase DEALER_TURN g) _ _ eq_refl).
  change (length (deck (set_phase DEALER_TURN g))) with (length (deck g)).
  unfold bind at 1.
  destruct (dealerLoop (S (length (deck g))) (set_phase DEALER_TURN g))
    as [o1 g1] eqn:Hloop.
  apply dealerLoop_spec in Hloop as (drawn & H1 & H2 & H3 & H4 & H5 & H6 & H7);
    [|simpl; lia].
  simpl in *. destruct o1 as [[]|e].
  - rewrite evaluateResults_fields. intros [= <- <-]. exists drawn. simpl.
    rewrite H3, <- H6. done.
  - intros [= <- <-]. exists drawn. destruct H7 as (-> & Hd & Hm).
    rewrite <- H6. done.
Qed.

Lemma findIndex_from_Some {A} (p : A → nat → bool) l : ∀ k i,
  findIndex_from p l k = Some i →
  k ≤ i
  ∧ (∃ x, l !! (i - k) = Some x ∧ p x i = true)
  ∧ ∀ j y, j < i - k → l !! j = Some y → p y (k + j) = false.
Proof.
  induction l as [|x l IH]; intros k i; simpl; [discriminate|].
  destruct (p x k) eqn:E.
  - intros [= <-]. rewrite Nat.sub_diag. split; [lia|]. split; [eauto|].
    intros j y Hj. lia.
  - intros H. apply IH in H as (Hk & (z & Hz & Hp) & Hmin).
    split; [lia|]. replace (i - k) with (S (i - S k)) by lia.
    split; [eauto|].
    intros [|j] y Hj Hy; simpl in Hy.
    + injection Hy as <-. by rewrite Nat.add_0_r.
    + replace (k + S j) with (S k + j) by lia. apply Hmin; [lia|done].
Qed.

Lemma findIndex_from_None {A} (p : A → nat → bool) l : ∀ k,
  findIndex_from p l k = None →
  ∀ j y, l !! j = Some y → p y (k + j) = false.
Proof.
  induction l as [|x l IH]; intros k; simpl; [by intros _ j y|].
  destruct (p x k) eqn:E; [discriminate|].
  intros H [|j] y Hy; simpl in Hy.
  - injection Hy as <-. by rewrite Nat.add_0_r.
  - replace (k + S j) with (S k + j) by lia. by eapply IH.
Qed.

(** X6: [moveToNextHandOrResolve] either makes the first ACTIVE hand behind
    the active index the active one and changes nothing else, or, when no
    hand behind the active index is ACTIVE, is exactly
    [resolveDealerTurn]. *)
Theorem moveToNextHandOrResolve_spec (g : BlackjackGame) :
  (∃ i hand,
      activeHandIndex g < i
      ∧ playerHands g !! i = Some hand ∧ status hand = ACTIVE
      ∧ (∀ j h, activeHandIndex g < j < i → playerHands g !! j = Some h →
                status h ≠ ACTIVE)
      ∧ moveToNextHandOrResolve g = (Ret tt, set_activeHandIndex i g))
  ∨ ((∀ j h, activeHandIndex g < j → playerHands g !! j = Some h →
             status h ≠ ACTIVE)
     ∧ moveToNextHandOrResolve g = resolveDealerTurn g).
Proof.
  unfold moveToNextHandOrResolve, bind, gets. simpl. unfold findIndex.
  destruct (findIndex_from _ _ 0) as [i|] eqn:E.
  - left. apply findIndex_from_Some in E as (_ & (x & Hx & Hp) & Hmin).
    rewrite Nat.sub_0_r in Hx, Hmin.
    apply andb_true_iff in Hp as [Hlt%Nat.ltb_lt Hs%bool_decide_eq_true].
    exists i, x. repeat split; try done.
    intros j h [Hj1 Hj2] Hh Hact. specialize (Hmin j h Hj2 Hh). simpl in Hmin.
    apply andb_false_iff in Hmin as [Hm%Nat.ltb_ge | Hm%bool_decide_eq_false];
      [lia | done].
  - right. split; [|reflexivity].
    intros j h Hj Hh Hact.
    pose proof (findIndex_from_None _ _ _ E j h Hh) as Hm. simpl in Hm.
    apply andb_false_iff in Hm as [Hm%Nat.ltb_ge | Hm%bool_decide_eq_false];
      [lia | done].
Qed.


Lemma map_settleHand_fields d bj hands :
  map cards (map (settleHand d bj) hands) = map cards hands
  ∧ map bet (map (settleHand d bj) hands) = map bet hands
  ∧ map status (map (settleHand d bj) hands) = map status hands.
Proof.
  rewrite !map_map. repeat split; apply map_ext; intros h;
    by destruct (settleHand_fields d bj h) as (? & ? & ?).
Qed.

Lemma resolveDealerTurn_frame g o g' :
  resolveDealerTurn g = (o, g') →
  options g' = options g
  ∧ activeHandIndex g' = activeHandIndex g
  ∧ map cards (playerHands g') = map cards (playerHands g)
  ∧ map bet (playerHands g') = map bet (playerHands g)
  ∧ map status (playerHands g') = map status (playerHands g)
  ∧ phase g' ≠ PLAYER_TURN
  ∧ allCards g' ≡ₚ allCards g.
Proof.
  intros H. pose proof (resolveDealerTurn_phase _ _ _ H) as Hph.
  apply resolveDealerTurn_spec in H as (drawn & Hd & Hdl & Hi & Ho & Hcase).
  assert (map cards (playerHands g') = map cards (playerHands g)
          ∧ map bet (playerHands g') = map bet (playerHands g)
          ∧ map status (playerHands g') = map status (playerHands g))
    as (Hc & Hb & Hs).
  { destruct o as [[]|e].
    - destruct Hcase as (_ & _ & ->). apply map_settleHand_fields.
    - by destruct Hcase as (_ & _ & _ & -> & _). }
  repeat split; try done.
  unfold allCards. rewrite Hc, Hd, Hdl.
  rewrite <- !app_assoc. apply Permutation_app_head.
  rewrite (Permutation_rev drawn) at 1.
  rewrite (Permutation_app_comm (rev drawn)).
  by rewrite <- !app_assoc.
Qed.

Lemma moveToNextHandOrResolve_frame g o g' :
  moveToNextHandOrResolve g = (o, g') →
  options g' = options g
  ∧ activeHandIndex g ≤ activeHandIndex g'
  ∧ map cards (playerHands g') = map cards (playerHands g)
  ∧ map bet (playerHands g') = map bet (playerHands g)
  ∧ map status (playerHands g') = map status (playerHands g)
  ∧ allCards g' ≡ₚ allCards g
  ∧ (phase g' = PLAYER_TURN →
     phase g = PLAYER_TURN ∧ o = Ret tt
     ∧ activeHandIndex g < activeHandIndex g'
     ∧ g' = set_activeHandIndex (activeHandIndex g') g
     ∧ ∃ hand, getActiveHand g' = Some hand ∧ status hand = ACTIVE).
Proof.
  unfold moveToNextHandOrResolve, bind, gets. simpl. unfold findIndex.
  destruct (findIndex_from _ _ 0) as [i|] eqn:E.
  - apply findIndex_from_Some in E as (_ & (x & Hx & Hp) & _).
    rewrite Nat.sub_0_r in Hx.
    apply andb_true_iff in Hp as [Hlt%Nat.ltb_lt Hs%bool_decide_eq_true].
    intros [= <- <-]. simpl. repeat split; try done; try lia.
    exists x. done.
  - intros H. apply resolveDealerTurn_frame in H
      as (Ho & Hi & Hc & Hb & Hs & Hph & Hperm).
    repeat split; try done. lia.
Qed.

Lemma settleHand_result d bj hand : result (settleHand d bj hand) ≠ PENDING.
Proof. unfold settleHand. repeat case_match; done. Qed.

Lemma dealerMustDraw_false_17 opts v :
  dealerMustDraw opts v = false → (17 <= value v)%Z.
Proof.
  unfold dealerMustDraw. intros H%orb_false_iff. destruct H as [H _].
  by apply Z.ltb_ge.
Qed.

(** X7: when [resolveDealerTurn] returns, the phase is ROUND_OVER, the
    dealer hand is the old one followed by the cards drawn from the end of
    the shoe, its total is at least 17, the cards, bets and statuses of the
    player hands are untouched and no player hand is left PENDING. *)
Theorem resolveDealerTurn_returns (g g' : BlackjackGame) :
  resolveDealerTurn g = (Ret tt, g') →
  ∃ drawn,
    deck g = deck g' ++ rev drawn
    ∧ dealerHand g' = dealerHand g ++ drawn
    ∧ phase g' = ROUND_OVER
    ∧ (17 <= value (getHandValue (dealerHand g')))%Z
    ∧ map cards (playerHands g') = map cards (playerHands g)
    ∧ map bet (playerHands g') = map bet (playerHands g)
    ∧ map status (playerHands g') = map status (playerHands g)
    ∧ ∀ hand, hand ∈ playerHands g' → result hand ≠ PENDING.
Proof.
  intros H. pose proof (resolveDealerTurn_frame _ _ _ H) as (_ & _ & Hc & Hb & Hs & _).
  apply resolveDealerTurn_spec in H as (drawn & Hd & Hdl & _ & _ & Hph & Hg & Hh).
  exists drawn. repeat split; try done.
  - by apply dealerMustDraw_false_17 in Hg.
  - intros hand Hin. rewrite Hh in Hin.
    apply list_elem_of_fmap in Hin as (h & -> & _). apply settleHand_result.
Qed.

(** X8: [resolveDealerTurn] throws only "Deck is empty.", with the whole
    shoe drawn into the dealer hand, a dealer total of at most 17, the
    player hands unsettled and the phase left at DEALER_TURN; in that state
    no action is legal and [startRound] is a silent no-op. *)
Theorem resolveDealerTurn_throws (g g' : BlackjackGame) (e : exn) :
  resolveDealerTurn g = (Throw e, g') →
  e = Error "Deck is empty."
  ∧ deck g' = []
  ∧ dealerHand g' = dealerHand g ++ rev (deck g)
  ∧ (value (getHandValue (dealerHand g')) <= 17)%Z
  ∧ phase g' = DEALER_TURN
  ∧ playerHands g' = playerHands g
  ∧ getAvailableActions g' = Ret []
  ∧ ∀ rnd b, startRound rnd b g' = (Ret tt, g').
Proof.
  intros H.
  apply resolveDealerTurn_spec in H
    as (drawn & Hd & Hdl & _ & _ & -> & Hdeck & Hph & Hh & Hg).
  rewrite Hdeck in Hd. simpl in Hd.
  repeat split; try done.
  - rewrite Hdl, Hd, rev_involutive. reflexivity.
  - unfold dealerMustDraw in Hg. apply orb_true_iff in Hg as [Hg | Hg].
    + apply Z.ltb_lt in Hg. lia.
    + apply andb_true_iff in Hg as [Hg _]. apply andb_true_iff in Hg as [Hg _].
      apply Z.eqb_eq in Hg. lia.
  - apply getAvailableActions_other_phase. rewrite Hph. discriminate.
  - intros rnd b. unfold startRound, bind, gets. by rewrite Hph.
Qed.

(** X9: on cards of rank at least 1, [resolveDealerTurn] returns normally
    whenever shoe and dealer hand together hold at least 17 cards. *)
Theorem resolveDealerTurn_completes (g : BlackjackGame) :
  Forall (fun c => 1 <= rank c)%Z (deck g) →
  Forall (fun c => 1 <= rank c)%Z (dealerHand g) →
  17 ≤ length (deck g) + length (dealerHand g) →
  ∃ g', resolveDealerTurn g = (Ret tt, g').
Proof.
  intros Hdeck Hdealer Hlen.
  destruct (resolveDealerTurn g) as [[[]|e] g'] eqn:H; [eauto|]. exfalso.
  apply resolveDealerTurn_spec in H
    as (drawn & Hd & Hdl & _ & _ & _ & Hempty & _ & _ & Hg).
  rewrite Hempty in Hd. simpl in Hd.
  assert (Forall (fun c => 1 <= rank c)%Z (dealerHand g')) as Hall.
  { rewrite Hdl. apply Forall_app. split; [done|].
    rewrite Hd in Hdeck. by apply Forall_rev in Hdeck; rewrite rev_involutive in Hdeck. }
  rewrite (dealerMustDraw_below_17 _ _ Hall) in Hg. apply Z.ltb_lt in Hg.
  pose proof (getHandValue_ge_length _ Hall) as Hl.
  rewrite Hdl in Hl at 1. rewrite length_app in Hl.
  rewrite Hd, length_rev in Hlen. lia.
Qed.


Lemma dealerLoop_S n g :
  dealerLoop (S n) g =
  if dealerMustDraw (options g) (getHandValue (dealerHand g)) then
    match array_pop (deck g) with
    | Some (card, rest) =>
      dealerLoop n (set_dealerHand (array_push card (dealerHand g)) (set_deck rest g))
    | None => (Throw (Error "Deck is empty."), g)
    end
  else (Ret tt, g).
Proof.
  simpl. unfold bind at 1, gets. simpl.
  destruct (dealerMustDraw _ _); [|reflexivity].
  unfold bind at 1, dealCard.
  destruct (array_pop (deck g)) as [[card rest]|]; reflexivity.
Qed.

Lemma dealerLoop_options n : ∀ g1 g2,
  agreeButOptions g1 g2 →
  Forall (fun c => 1 <= rank c)%Z (deck g1) →
  Forall (fun c => 1 <= rank c)%Z (dealerHand g1) →
  (dealerLoop n g1).1 = (dealerLoop n g2).1
  ∧ agreeButOptions (dealerLoop n g1).2 (dealerLoop n g2).2.
Proof.
  induction n as [|n IH]; intros g1 g2 Hagree Hdeck Hdealer; [done|].
  pose proof Hagree as (Hd & Hh & Hdl & Hi & Hp).
  rewrite !dealerLoop_S. rewrite <- Hdl, <- Hd.
  rewrite !(dealerMustDraw_below_17 _ _ Hdealer).
  destruct (value (getHandValue (dealerHand g1)) <? 17)%Z; [|done].
  destruct (array_pop (deck g1)) as [[card rest]|] eqn:Hpop; [|done].
  apply array_pop_Some in Hpop. rewrite Hpop in Hdeck.
  apply Forall_app in Hdeck as [Hrest Hcard].
  apply IH.
  - unfold agreeButOptions. simpl. by rewrite Hh, Hi, Hp.
  - exact Hrest.
  - simpl. unfold array_push. apply Forall_app. done.
Qed.

(** X10: on cards of rank at least 1 the options play no part in the dealer
    resolution: two engines that differ only in their options (in
    [dealerHitsOnSoft17], say) get the same outcome and the same fields. *)
Theorem dealer_options_no_effect (g1 g2 : BlackjackGame) :
  agreeButOptions g1 g2 →
  Forall (fun c => 1 <= rank c)%Z (deck g1) →
  Forall (fun c => 1 <= rank c)%Z (dealerHand g1) →
  (resolveDealerTurn g1).1 = (resolveDealerTurn g2).1
  ∧ agreeButOptions (resolveDealerTurn g1).2 (resolveDealerTurn g2).2.
Proof.
  intros Hagree Hdeck Hdealer.
  pose proof Hagree as (Hd & Hh & Hdl & Hi & Hp).
  unfold resolveDealerTurn.
  rewrite !(bind_Ret (modify (set_phase DEALER_TURN)) _ _ tt _ eq_refl).
  rewrite (bind_Ret (gets (fun g => length (deck g))) _
             (set_phase DEALER_TURN g1) _ _ eq_refl).
  rewrite (bind_Ret (gets (fun g => length (deck g))) _
             (set_phase DEALER_TURN g2) _ _ eq_refl).
  change (length (deck (set_phase DEALER_TURN g1))) with (length (deck g1)).
  change (length (deck (set_phase DEALER_TURN g2))) with (length (deck g2)).
  rewrite <- Hd.
  destruct (dealerLoop_options (S (length (deck g1)))
              (set_phase DEALER_TURN g1) (set_phase DEALER_TURN g2))
    as [Ho Ha]; [by unfold agreeButOptions; simpl|done|done|].
  unfold bind at 1 2 3 4.
  destruct (dealerLoop _ (set_phase DEALER_TURN g1)) as [o1 h1].
  destruct (dealerLoop _ (set_phase DEALER_TURN g2)) as [o2 h2].
  simpl in Ho, Ha. subst o2. destruct Ha as (Hd' & Hh' & Hdl' & Hi' & Hp').
  destruct o1 as [[]|e]; [|done].
  rewrite !evaluateResults_fields. unfold agreeButOptions. simpl.
  by rewrite Hd', Hh', Hdl', Hi'.
Qed.

(** ** Player actions, in full *)

Lemma canPerformAction_legal g hand a :
  phase g = PLAYER_TURN → getActiveHand g = Some hand →
  a = HIT ∨ a = STAND ∨ (a = DOUBLE_DOWN ∧ length (cards hand) = 2) →
  canPerformAction a g = (Ret true, g).
Proof.
  intros Hp Hh Ha.
  rewrite (canPerformAction_Ret g _ a (getAvailableActions_player_turn g hand Hp Hh)).
  f_equal. f_equal. apply bool_decide_eq_true_2.
  destruct Ha as [-> | [-> | [-> Hl]]].
  - repeat case_match; by_evaluation.
  - repeat case_match; by_evaluation.
  - apply Nat.eqb_eq in Hl. rewrite Hl. case_match; by_evaluation.
Qed.

Lemma stand_legal g hand :
  phase g = PLAYER_TURN → getActiveHand g = Some hand →
  stand g =
  moveToNextHandOrResolve
    (set_playerHands
       (<[activeHandIndex g := set_status STOOD hand]> (playerHands g)) g).
Proof.
  intros Hp Hh. unfold stand.
  rewrite (bind_Ret _ _ _ _ _ (canPerformAction_legal g hand STAND Hp Hh
                                 ltac:(auto))).
  simpl. unfold bind at 1, gets at 1. simpl.
  by erewrite bind_Ret by (by apply modifyHand_Some).
Qed.

Lemma doubleDown_legal g hand card rest :
  phase g = PLAYER_TURN → getActiveHand g = Some hand →
  length (cards hand) = 2 →
  deck g = rest ++ [card] →
  doubleDown g =
  moveToNextHandOrResolve
    (set_playerHands
       (<[activeHandIndex g :=
            mkHand (cards hand ++ [card]) (bet hand * 2)
                   (if (21 <? value (getHandValue (cards hand ++ [card])))%Z
                    then BUST else STOOD)
                   (result hand)]> (playerHands g))
       (set_deck rest g)).
Proof.
  intros Hp Hh Hl Hd. unfold doubleDown.
  rewrite (bind_Ret _ _ _ _ _ (canPerformAction_legal g hand DOUBLE_DOWN Hp Hh
                                 ltac:(auto))).
  pose proof (lookup_lt_Some _ _ _ Hh) as Hi.
  destruct g as [d hands dealer i ph opts]. unfold getActiveHand in Hh.
  simpl in Hp, Hh, Hd, Hi |- *. subst d ph.
  unfold bind at 1, gets at 1. simpl.
  erewrite bind_Ret by (by apply modifyHand_Some).
  erewrite bind_Ret by (by apply (dealCard_top _ card rest)).
  erewrite bind_Ret by (apply modifyHand_Some; simpl; by apply list_lookup_insert_eq).
  erewrite bind_Ret by (apply readHand_Some; simpl;
                        apply list_lookup_insert_eq; by rewrite length_insert).
  erewrite bind_Ret by (apply modifyHand_Some; simpl;
                        apply list_lookup_insert_eq; by rewrite length_insert).
  simpl. by rewrite !list_insert_insert_eq.
Qed.

Lemma doubleDown_empty g hand :
  phase g = PLAYER_TURN → getActiveHand g = Some hand →
  length (cards hand) = 2 → deck g = [] →
  doubleDown g =
  (Throw (Error "Deck is empty."),
   set_playerHands
     (<[activeHandIndex g := set_bet (bet hand * 2) hand]> (playerHands g)) g).
Proof.
  intros Hp Hh Hl Hd. unfold doubleDown.
  rewrite (bind_Ret _ _ _ _ _ (canPerformAction_legal g hand DOUBLE_DOWN Hp Hh
                                 ltac:(auto))).
  simpl. unfold bind at 1, gets at 1. simpl.
  erewrite bind_Ret by (by apply modifyHand_Some).
  by erewrite bind_Throw by (by apply dealCard_empty).
Qed.

Lemma hit_empty g hand :
  phase g = PLAYER_TURN → getActiveHand g = Some hand → deck g = [] →
  hit g = (Throw (Error "Deck is empty."), g).
Proof.
  intros Hp Hh Hd. unfold hit.
  rewrite (bind_Ret _ _ _ _ _ (canPerformAction_legal g hand HIT Hp Hh
                                 ltac:(auto))).
  simpl. unfold bind at 1, gets at 1. simpl.
  erewrite bind_Ret by (by apply readHand_Some).
  by erewrite bind_Throw by (by apply dealCard_empty).
Qed.

Lemma split_short_deck g actions hand c1 c2 :
  getAvailableActions g = Ret actions → SPLIT ∈ actions →
  getActiveHand g = Some hand → cards hand = [c1; c2] →
  (deck g = [] →
   split g = (Throw (Error "Deck is empty."),
              set_playerHands
                (<[activeHandIndex g := set_cards [c1] hand]> (playerHands g)) g))
  ∧ (∀ card, deck g = [card] →
     split g = (Throw (Error "Deck is empty."),
                set_playerHands
                  (<[activeHandIndex g := set_cards [c1; card] hand]> (playerHands g))
                  (set_deck [] g))).
Proof.
  intros Hacts Hin Hh Hc.
  pose proof (lookup_lt_Some _ _ _ Hh) as Hi.
  destruct g as [d hands dealer i ph opts]. unfold getActiveHand in Hh.
  simpl in Hh, Hi |- *.
  assert (split (mkGame d hands dealer i ph opts) =
          (let* card1 := dealCard in
           let* _ := modifyHand i "cards" (pushCard card1) in
           let* card2 := dealCard in
           let newHand := pushCard card2 (mkHand [c2] (bet hand) ACTIVE PENDING) in
           let* _ := modify (fun g =>
             set_playerHands
               (splice_insert (activeHandIndex g + 1) newHand (playerHands g)) g) in
           let* activeHand := readHand i "cards" in
           if (value (getHandValue (cards activeHand)) =? 21)%Z
           then modifyHand i "status" (set_status STOOD)
           else ret tt)
            (mkGame d (<[i := set_cards [c1] hand]> hands) dealer i ph opts))
    as ->.
  { unfold split.
    rewrite (bind_Ret _ _ _ _ _ (canPerformAction_Ret _ actions SPLIT Hacts)).
    rewrite (bool_decide_eq_true_2 _ Hin). simpl.
    unfold bind at 1, gets at 1. simpl.
    erewrite bind_Ret by (by apply readHand_Some).
    rewrite Hc. simpl.
    by erewrite bind_Ret by (by apply modifyHand_Some). }
  split.
  - intros ->. by erewrite bind_Throw by (by apply dealCard_empty).
  - intros card ->.
    erewrite bind_Ret by (by apply (dealCard_top _ card [])).
    erewrite bind_Ret by (apply modifyHand_Some; simpl; by apply list_lookup_insert_eq).
    erewrite bind_Throw by (by apply dealCard_empty).
    simpl. by rewrite list_insert_insert_eq.
Qed.

Lemma list_end {A} (l : list A) : l = [] ∨ ∃ rest x, l = rest ++ [x].
Proof.
  destruct (array_pop l) as [[x rest]|] eqn:E.
  - right. exists rest, x. by apply array_pop_Some.
  - left. by apply array_pop_None.
Qed.

Lemma legal_double_hand g actions :
  getAvailableActions g = Ret actions → DOUBLE_DOWN ∈ actions →
  phase g = PLAYER_TURN
  ∧ ∃ hand, getActiveHand g = Some hand ∧ length (cards hand) = 2.
Proof.
  intros Ha Hin.
  destruct (getAvailableActions_elem g actions _ Ha Hin) as [Hp [hand Hh]].
  split; [exact Hp|]. exists hand. split; [exact Hh|].
  rewrite (getAvailableActions_player_turn g hand Hp Hh) in Ha.
  injection Ha as <-.
  destruct (length (cards hand) =? 2) eqn:E; [by apply Nat.eqb_eq|].
  revert Hin. no_such_action.
Qed.

Lemma hit_cases g :
  hit g = (Ret tt, g)
  ∨ (∃ e, hit g = (Throw e, g))
  ∨ ∃ hand card rest,
      phase g = PLAYER_TURN ∧ getActiveHand g = Some hand
      ∧ deck g = rest ++ [card]
      ∧ hit g =
        if (21 <? value (getHandValue (cards hand ++ [card])))%Z
        then moveToNextHandOrResolve
               (set_playerHands
                  (<[activeHandIndex g := set_status BUST (pushCard card hand)]>
                     (playerHands g)) (set_deck rest g))
        else (Ret tt,
              set_playerHands
                (<[activeHandIndex g := pushCard card hand]> (playerHands g))
                (set_deck rest g)).
Proof.
  destruct (getAvailableActions g) as [actions|e] eqn:Ha.
  - destruct (decide (HIT ∈ actions)) as [Hin|Hnot].
    + destruct (getAvailableActions_elem g actions _ Ha Hin) as [Hp [hand Hh]].
      destruct (list_end (deck g)) as [Hd | (rest & card & Hd)].
      * right; left. eexists. by apply (hit_empty g hand).
      * right; right. exists hand, card, rest.
        repeat split; try done.
        rewrite (hit_legal g hand card rest Hp Hh Hd). simpl.
        destruct (21 <? _)%Z; reflexivity.
    + left. unfold hit.
      rewrite (bind_Ret _ _ _ _ _ (canPerformAction_Ret g actions HIT Ha)).
      by rewrite (bool_decide_eq_false_2 _ Hnot).
  - right; left. exists e. unfold hit.
    by rewrite (bind_Throw _ _ _ _ _ (canPerformAction_Throw g e HIT Ha)).
Qed.

Lemma stand_cases g :
  stand g = (Ret tt, g)
  ∨ (∃ e, stand g = (Throw e, g))
  ∨ ∃ hand,
      phase g = PLAYER_TURN ∧ getActiveHand g = Some hand
      ∧ stand g =
        moveToNextHandOrResolve
          (set_playerHands
             (<[activeHandIndex g := set_status STOOD hand]> (playerHands g)) g).
Proof.
  destruct (getAvailableActions g) as [actions|e] eqn:Ha.
  - destruct (decide (STAND ∈ actions)) as [Hin|Hnot].
    + destruct (getAvailableActions_elem g actions _ Ha Hin) as [Hp [hand Hh]].
      right; right. exists hand. repeat split; try done.
      by apply stand_legal.
    + left. unfold stand.
      rewrite (bind_Ret _ _ _ _ _ (canPerformAction_Ret g actions STAND Ha)).
      by rewrite (bool_decide_eq_false_2 _ Hnot).
  - right; left. exists e. unfold stand.
    by rewrite (bind_Throw _ _ _ _ _ (canPerformAction_Throw g e STAND Ha)).
Qed.

Lemma doubleDown_cases g :
  doubleDown g = (Ret tt, g)
  ∨ (∃ e, doubleDown g = (Throw e, g))
  ∨ ∃ hand,
      phase g = PLAYER_TURN ∧ getActiveHand g = Some hand
      ∧ length (cards hand) = 2
      ∧ ((deck g = []
          ∧ doubleDown g =
            (Throw (Error "Deck is empty."),
             set_playerHands
               (<[activeHandIndex g := set_bet (bet hand * 2) hand]>
                  (playerHands g)) g))
         ∨ ∃ card rest,
             deck g = rest ++ [card]
             ∧ doubleDown g =
               moveToNextHandOrResolve
                 (set_playerHands
                    (<[activeHandIndex g :=
                         mkHand (cards hand ++ [card]) (bet hand * 2)
                           (if (21 <? value (getHandValue (cards hand ++ [card])))%Z
                            then BUST else STOOD)
                           (result hand)]> (playerHands g))
                    (set_deck rest g))).
Proof.
  destruct (getAvailableActions g) as [actions|e] eqn:Ha.
  - destruct (decide (DOUBLE_DOWN ∈ actions)) as [Hin|Hnot].
    + destruct (legal_double_hand g actions Ha Hin) as (Hp & hand & Hh & Hl).
      right; right. exists hand. repeat split; try done.
      destruct (list_end (deck g)) as [Hd | (rest & card & Hd)].
      * left. split; [done|]. by apply doubleDown_empty.
      * right. exists card, rest. split; [done|]. by apply doubleDown_legal.
    + left. unfold doubleDown.
      rewrite (bind_Ret _ _ _ _ _ (canPerformAction_Ret g actions DOUBLE_DOWN Ha)).
      by rewrite (bool_decide_eq_false_2 _ Hnot).
  - right; left. exists e. unfold doubleDown.
    by rewrite (bind_Throw _ _ _ _ _ (canPerformAction_Throw g e DOUBLE_DOWN Ha)).
Qed.

Lemma split_cases g :
  split g = (Ret tt, g)
  ∨ (∃ e, split g = (Throw e, g))
  ∨ ∃ hand c1 c2,
      phase g = PLAYER_TURN ∧ getActiveHand g = Some hand
      ∧ cards hand = [c1; c2]
      ∧ ((deck g = []
          ∧ split g =
            (Throw (Error "Deck is empty."),
             set_playerHands
               (<[activeHandIndex g := set_cards [c1] hand]> (playerHands g)) g))
         ∨ (∃ card,
              deck g = [card]
              ∧ split g =
                (Throw (Error "Deck is empty."),
                 set_playerHands
                   (<[activeHandIndex g := set_cards [c1; card] hand]>
                      (playerHands g)) (set_deck [] g)))
         ∨ ∃ rest card2 card1,
             deck g = rest ++ [card2; card1]
             ∧ split g =
               (Ret tt,
                set_playerHands
                  (take (activeHandIndex g) (playerHands g)
                   ++ mkHand [c1; card1] (bet hand)
                        (if (value (getHandValue [c1; card1]) =? 21)%Z
                         then STOOD else status hand)
                        (result hand)
                   :: mkHand [c2; card2] (bet hand) ACTIVE PENDING
                   :: drop (S (activeHandIndex g)) (playerHands g))
                  (set_deck rest g))).
Proof.
  destruct (getAvailableActions g) as [actions|e] eqn:Ha.
  - destruct (decide (SPLIT ∈ actions)) as [Hin|Hnot].
    + destruct (legal_split_hand g actions Ha Hin)
        as (Hp & hand & c1 & c2 & Hh & Hc & _).
      right; right. exists hand, c1, c2. repeat split; try done.
      destruct (split_short_deck g actions hand c1 c2 Ha Hin Hh Hc) as [H0 H1].
      destruct (list_end (deck g)) as [Hd | (rest & card1 & Hd)]; [by left; auto|].
      right. destruct (list_end rest) as [-> | (rest' & card2 & ->)].
      * left. exists card1. split; [done|]. by apply H1.
      * right. exists rest', card2, card1. rewrite <- app_assoc in Hd.
        split; [done|]. by apply (split_legal g actions).
    + left. unfold split.
      rewrite (bind_Ret _ _ _ _ _ (canPerformAction_Ret g actions SPLIT Ha)).
      by rewrite (bool_decide_eq_false_2 _ Hnot).
  - right; left. exists e. unfold split.
    by rewrite (bind_Throw _ _ _ _ _ (canPerformAction_Throw g e SPLIT Ha)).
Qed.

Lemma lookup_same_fields (l' l : list HandState) i h :
  map cards l' = map cards l → map bet l' = map bet l →
  map status l' = map status l →
  l !! i = Some h →
  ∃ h', l' !! i = Some h' ∧ cards h' = cards h ∧ bet h' = bet h
        ∧ status h' = status h.
Proof.
  intros Hc Hb Hs Hh.
  assert (map cards l' !! i = Some (cards h)) as Hc'
    by (by rewrite Hc, list_lookup_fmap, Hh).
  assert (map bet l' !! i = Some (bet h)) as Hb'
    by (by rewrite Hb, list_lookup_fmap, Hh).
  assert (map status l' !! i = Some (status h)) as Hs'
    by (by rewrite Hs, list_lookup_fmap, Hh).
  rewrite list_lookup_fmap in Hc'. rewrite list_lookup_fmap in Hb'.
  rewrite list_lookup_fmap in Hs'.
  destruct (l' !! i) as [h'|]; [|discriminate].
  simpl in *. exists h'. by simplify_eq.
Qed.

Lemma concat_map_insert {A B} (f : A → list B) (l : list A) : ∀ i h h',
  l !! i = Some h →
  concat (map f (<[i := h']> l)) ++ f h ≡ₚ concat (map f l) ++ f h'.
Proof.
  induction l as [|x l IH]; intros i h h' Hh; [done|].
  destruct i as [|i]; simpl in *.
  - injection Hh as ->. rewrite <- !app_assoc.
    rewrite (Permutation_app_comm (concat (map f l)) (f h)).
    rewrite (Permutation_app_comm (concat (map f l)) (f h')).
    rewrite !app_assoc. apply Permutation_app_tail, Permutation_app_comm.
  - rewrite <- !app_assoc. apply Permutation_app_head. by apply IH.
Qed.

(** X11: a [hit()] in PLAYER_TURN on a shoe that is not empty deals the last
    card of the shoe to the active hand and keeps its bet.  On a total of
    at most 21 it returns with nothing else changed; on a total above 21
    the hand is BUST and, if the player's turn goes on, a later hand is
    active. *)
Theorem hit_deals_one_card (g : BlackjackGame) (hand : HandState)
  (card : Card) (rest : list Card) :
  phase g = PLAYER_TURN → getActiveHand g = Some hand →
  deck g = rest ++ [card] →
  ∃ o g' hand',
    hit g = (o, g')
    ∧ playerHands g' !! activeHandIndex g = Some hand'
    ∧ cards hand' = cards hand ++ [card] ∧ bet hand' = bet hand
    ∧ ((value (getHandValue (cards hand ++ [card])) <= 21)%Z →
       o = Ret tt
       ∧ g' = set_playerHands
                (<[activeHandIndex g := pushCard card hand]> (playerHands g))
                (set_deck rest g))
    ∧ ((21 < value (getHandValue (cards hand ++ [card])))%Z →
       status hand' = BUST
       ∧ (phase g' = PLAYER_TURN → activeHandIndex g < activeHandIndex g')).
Proof.
  intros Hp Hh Hd. pose proof (lookup_lt_Some _ _ _ Hh) as Hi.
  rewrite (hit_legal g hand card rest Hp Hh Hd). simpl.
  destruct (Z.ltb_spec 21 (value (getHandValue (cards hand ++ [card])))) as [Hb|Hb].
  - destruct (moveToNextHandOrResolve _) as [o g'] eqn:Hm.
    apply moveToNextHandOrResolve_frame in Hm
      as (_ & _ & Hc & Hbt & Hs & _ & Hturn).
    simpl in Hc, Hbt, Hs, Hturn.
    destruct (lookup_same_fields _ _ (activeHandIndex g)
                (set_status BUST (pushCard card hand)) Hc Hbt Hs)
      as (hand' & Hl & Hc' & Hb' & Hs').
    { by apply list_lookup_insert_eq. }
    exists o, g', hand'. repeat split; try done; try lia.
    intros Hp'. by destruct (Hturn Hp') as (_ & _ & Hlt & _).
  - eexists _, _, _. split; [reflexivity|]. simpl.
    split; [by apply list_lookup_insert_eq|].
    repeat split; try done; lia.
Qed.

(** X12: a [stand()] in PLAYER_TURN marks the active hand STOOD and keeps
    its cards and bet; shoe and dealer hand together keep their cards; if
    the phase is still PLAYER_TURN afterwards, the call returned normally,
    shoe and dealer hand are untouched, and the new active hand is a later
    hand that is ACTIVE. *)
Theorem stand_spec (g : BlackjackGame) (hand : HandState) :
  phase g = PLAYER_TURN → getActiveHand g = Some hand →
  ∃ o g' hand',
    stand g = (o, g')
    ∧ playerHands g' !! activeHandIndex g = Some hand'
    ∧ cards hand' = cards hand ∧ bet hand' = bet hand
    ∧ status hand' = STOOD
    ∧ deck g' ++ dealerHand g' ≡ₚ deck g ++ dealerHand g
    ∧ (phase g' = PLAYER_TURN →
       o = Ret tt ∧ activeHandIndex g < activeHandIndex g'
       ∧ deck g' = deck g ∧ dealerHand g' = dealerHand g
       ∧ ∃ next, getActiveHand g' = Some next ∧ status next = ACTIVE).
Proof.
  intros Hp Hh. pose proof (lookup_lt_Some _ _ _ Hh) as Hi.
  rewrite (stand_legal g hand Hp Hh).
  destruct (moveToNextHandOrResolve _) as [o g'] eqn:Hm.
  apply moveToNextHandOrResolve_frame in Hm
    as (_ & _ & Hc & Hbt & Hs & Hperm & Hturn).
  simpl in Hc, Hbt, Hs, Hturn.
  destruct (lookup_same_fields _ _ (activeHandIndex g)
              (set_status STOOD hand) Hc Hbt Hs)
    as (hand' & Hl & Hc' & Hb' & Hs'); [by apply list_lookup_insert_eq|].
  exists o, g', hand'. repeat split; try done.
  - unfold allCards in Hperm. simpl in Hperm. rewrite Hc in Hperm.
    rewrite !(Permutation_app_comm (deck _)) in Hperm.
    rewrite <- !app_assoc in Hperm. apply Permutation_app_inv_l in Hperm.
    rewrite !(Permutation_app_comm (deck _)). exact Hperm.
  - by destruct (Hturn H) as (_ & ? & _).
  - simpl. by destruct (Hturn H) as (_ & _ & ? & _).
  - destruct (Hturn H) as (_ & _ & _ & -> & _). reflexivity.
  - destruct (Hturn H) as (_ & _ & _ & -> & _). reflexivity.
  - by destruct (Hturn H) as (_ & _ & _ & _ & ?).
Qed.

(** X13: a [doubleDown()] on a two-card active hand and a shoe that is not
    empty doubles the bet, deals exactly one card, and leaves the hand BUST
    on a total above 21 and STOOD otherwise; the turn moves past it. *)
Theorem doubleDown_spec (g : BlackjackGame) (hand : HandState)
  (card : Card) (rest : list Card) :
  phase g = PLAYER_TURN → getActiveHand g = Some hand →
  length (cards hand) = 2 → deck g = rest ++ [card] →
  ∃ o g' hand',
    doubleDown g = (o, g')
    ∧ playerHands g' !! activeHandIndex g = Some hand'
    ∧ cards hand' = cards hand ++ [card]
    ∧ bet hand' = (bet hand * 2)%Z
    ∧ status hand'
      = (if (21 <? value (getHandValue (cards hand ++ [card])))%Z
         then BUST else STOOD)
    ∧ (phase g' = PLAYER_TURN → activeHandIndex g < activeHandIndex g').
Proof.
  intros Hp Hh Hl Hd. pose proof (lookup_lt_Some _ _ _ Hh) as Hi.
  rewrite (doubleDown_legal g hand card rest Hp Hh Hl Hd).
  destruct (moveToNextHandOrResolve _) as [o g'] eqn:Hm.
  apply moveToNextHandOrResolve_frame in Hm
    as (_ & _ & Hc & Hbt & Hs & _ & Hturn).
  simpl in Hc, Hbt, Hs, Hturn.
  destruct (lookup_same_fields _ _ (activeHandIndex g)
              (mkHand (cards hand ++ [card]) (bet hand * 2)
                 (if (21 <? value (getHandValue (cards hand ++ [card])))%Z
                  then BUST else STOOD) (result hand)) Hc Hbt Hs)
    as (hand' & Hl' & Hc' & Hb' & Hs'); [by apply list_lookup_insert_eq|].
  exists o, g', hand'. repeat split; try done.
  intros Hp'. by destruct (Hturn Hp') as (_ & _ & ? & _).
Qed.

(** X14: on an empty shoe in PLAYER_TURN, [hit()] throws "Deck is empty."
    and changes nothing; [doubleDown()] on a two-card hand throws after
    having doubled the bet; [split()] on a pair throws after having taken
    the second card out of the active hand. *)
Theorem actions_on_empty_deck (g : BlackjackGame) (hand : HandState) :
  phase g = PLAYER_TURN → getActiveHand g = Some hand → deck g = [] →
  hit g = (Throw (Error "Deck is empty."), g)
  ∧ (length (cards hand) = 2 →
     doubleDown g =
     (Throw (Error "Deck is empty."),
      set_playerHands
        (<[activeHandIndex g := set_bet (bet hand * 2) hand]> (playerHands g)) g))
  ∧ (∀ c1 c2, cards hand = [c1; c2] → canSplit hand = true →
     split g =
     (Throw (Error "Deck is empty."),
      set_playerHands
        (<[activeHandIndex g := set_cards [c1] hand]> (playerHands g)) g)).
Proof.
  intros Hp Hh Hd. split; [by apply (hit_empty g hand)|].
  split; [intros Hl; by apply doubleDown_empty|].
  intros c1 c2 Hc Hs.
  pose proof (getAvailableActions_player_turn g hand Hp Hh) as Ha.
  rewrite Hc, Hs in Ha. simpl in Ha.
  apply (split_short_deck g _ hand c1 c2 Ha); [by_evaluation|done|done|done].
Qed.

Lemma frame_direct g g' :
  options g' = options g → activeHandIndex g' = activeHandIndex g →
  length (playerHands g) ≤ length (playerHands g') →
  dealerHand g' = dealerHand g → phase g' = phase g →
  options g' = options g
  ∧ activeHandIndex g ≤ activeHandIndex g'
  ∧ length (playerHands g) ≤ length (playerHands g')
  ∧ (phase g' = PLAYER_TURN →
     phase g = PLAYER_TURN ∧ dealerHand g' = dealerHand g).
Proof.
  intros Ho Hi Hl Hd Hp. split; [done|]. split; [lia|]. split; [done|].
  intros Hp'. split; [congruence | done].
Qed.

Lemma frame_via_move g g1 o g' :
  options g1 = options g → activeHandIndex g1 = activeHandIndex g →
  length (playerHands g1) = length (playerHands g) →
  dealerHand g1 = dealerHand g → phase g = PLAYER_TURN →
  moveToNextHandOrResolve g1 = (o, g') →
  options g' = options g
  ∧ activeHandIndex g ≤ activeHandIndex g'
  ∧ length (playerHands g) ≤ length (playerHands g')
  ∧ (phase g' = PLAYER_TURN →
     phase g = PLAYER_TURN ∧ dealerHand g' = dealerHand g).
Proof.
  intros Ho Hi Hl Hdl Hp Hm.
  apply moveToNextHandOrResolve_frame in Hm
    as (Ho' & Hi' & Hc & _ & _ & _ & Hturn).
  assert (length (playerHands g') = length (playerHands g1)) as Hl'
    by (by rewrite <- (length_map cards), Hc, length_map).
  split; [congruence|]. split; [lia|]. split; [lia|].
  intros Hp'. split; [exact Hp|].
  destruct (Hturn Hp') as (_ & _ & _ & -> & _).
  simpl. congruence.
Qed.

(** X15: whatever its outcome, a call of [hit], [stand], [doubleDown] or
    [split] keeps the options, never lowers [activeHandIndex], never
    removes a player hand, and leaves the phase PLAYER_TURN only if it was
    PLAYER_TURN, with the dealer hand as it was. *)
Theorem actions_frame (g g' : BlackjackGame) (o : outcome unit) :
  hit g = (o, g') ∨ stand g = (o, g')
  ∨ doubleDown g = (o, g') ∨ split g = (o, g') →
  options g' = options g
  ∧ activeHandIndex g ≤ activeHandIndex g'
  ∧ length (playerHands g) ≤ length (playerHands g')
  ∧ (phase g' = PLAYER_TURN →
     phase g = PLAYER_TURN ∧ dealerHand g' = dealerHand g).
Proof.
  intros [H | [H | [H | H]]].
  - destruct (hit_cases g) as [E | [[e E] | (hand & card & rest & Hp & Hh & Hd & E)]];
      rewrite E in H; try (injection H as <- <-; by apply frame_direct).
    destruct (21 <? _)%Z.
    + eapply frame_via_move; [..|exact H]; try done.
      simpl. by rewrite length_insert.
    + injection H as <- <-. apply frame_direct; try done.
      simpl. by rewrite length_insert.
  - destruct (stand_cases g) as [E | [[e E] | (hand & Hp & Hh & E)]];
      rewrite E in H; try (injection H as <- <-; by apply frame_direct).
    eapply frame_via_move; [..|exact H]; try done.
    simpl. by rewrite length_insert.
  - destruct (doubleDown_cases g)
      as [E | [[e E] | (hand & Hp & Hh & Hl & [[Hd E] | (card & rest & Hd & E)])]];
      rewrite E in H; try (injection H as <- <-; by apply frame_direct).
    + injection H as <- <-. apply frame_direct; try done.
      simpl. by rewrite length_insert.
    + eapply frame_via_move; [..|exact H]; try done.
      simpl. by rewrite length_insert.
  - pose proof (split_cases g) as Hcases.
    destruct Hcases
      as [E | [[e E] | (hand & c1 & c2 & Hp & Hh & Hc &
                        [[Hd E] | [(card & Hd & E) | (rest & k2 & k1 & Hd & E)]])]];
      rewrite E in H; try (injection H as <- <-; by apply frame_direct).
    + injection H as <- <-. apply frame_direct; try done.
      simpl. by rewrite length_insert.
    + injection H as <- <-. apply frame_direct; try done.
      simpl. by rewrite length_insert.
    + injection H as <- <-. apply frame_direct; try done.
      simpl. rewrite length_app, length_take. simpl. rewrite length_drop.
      apply lookup_lt_Some in Hh. lia.
Qed.

Lemma map_insert_same {A B} (f : A → B) (l : list A) i h h' :
  l !! i = Some h → f h' = f h → map f (<[i := h']> l) = map f l.
Proof.
  intros Hh Hf. rewrite list_fmap_insert, Hf.
  apply list_insert_id. by rewrite list_lookup_fmap, Hh.
Qed.

Lemma concat_insert_push (l : list HandState) i h h' card :
  l !! i = Some h → cards h' = cards h ++ [card] →
  concat (map cards (<[i := h']> l)) ≡ₚ card :: concat (map cards l).
Proof.
  intros Hh Hc.
  apply (Permutation_app_inv_r (cards h)).
  rewrite (concat_map_insert cards l i h h' Hh), Hc. solve_Permutation.
Qed.

Lemma allCards_push g hand h' card rest :
  getActiveHand g = Some hand → deck g = rest ++ [card] →
  cards h' = cards hand ++ [card] →
  allCards (set_playerHands (<[activeHandIndex g := h']> (playerHands g))
                            (set_deck rest g))
  ≡ₚ allCards g.
Proof.
  intros Hh Hd Hc. unfold allCards. simpl. rewrite Hd.
  rewrite (concat_insert_push _ _ hand h' card Hh Hc). solve_Permutation.
Qed.

Lemma allCards_same g hand h' :
  getActiveHand g = Some hand → cards h' = cards hand →
  allCards (set_playerHands (<[activeHandIndex g := h']> (playerHands g)) g)
  = allCards g.
Proof.
  intros Hh Hc. unfold allCards. simpl.
  by rewrite (map_insert_same cards _ _ hand h' Hh Hc).
Qed.

(** X16: [hit], [stand] and [doubleDown], whatever their outcome, and a
    [split] that returns, neither lose nor duplicate a card: shoe, player
    hands and dealer hand together hold the same cards as before. *)
Theorem cards_conserved (g g' : BlackjackGame) (o : outcome unit) :
  hit g = (o, g') ∨ stand g = (o, g') ∨ doubleDown g = (o, g')
  ∨ (o = Ret tt ∧ split g = (o, g')) →
  allCards g' ≡ₚ allCards g.
Proof.
  intros [H | [H | [H | [-> H]]]].
  - destruct (hit_cases g) as [E | [[e E] | (hand & card & rest & Hp & Hh & Hd & E)]];
      rewrite E in H; try (by injection H as <- <-).
    destruct (21 <? _)%Z.
    + apply moveToNextHandOrResolve_frame in H as (_ & _ & _ & _ & _ & -> & _).
      by apply (allCards_push g hand _ card).
    + injection H as <- <-. by apply (allCards_push g hand _ card).
  - destruct (stand_cases g) as [E | [[e E] | (hand & Hp & Hh & E)]];
      rewrite E in H; try (by injection H as <- <-).
    apply moveToNextHandOrResolve_frame in H as (_ & _ & _ & _ & _ & -> & _).
    by rewrite (allCards_same g hand).
  - destruct (doubleDown_cases g)
      as [E | [[e E] | (hand & Hp & Hh & Hl & [[Hd E] | (card & rest & Hd & E)])]];
      rewrite E in H; try (by injection H as <- <-).
    + injection H as <- <-. by rewrite (allCards_same g hand).
    + apply moveToNextHandOrResolve_frame in H as (_ & _ & _ & _ & _ & -> & _).
      by apply (allCards_push g hand _ card).
  - pose proof (split_cases g) as Hcases.
    destruct Hcases
      as [E | [[e E] | (hand & c1 & c2 & Hp & Hh & Hc &
                        [[Hd E] | [(card & Hd & E) | (rest & k2 & k1 & Hd & E)]])]];
      rewrite E in H; try (by injection H as <-); try discriminate.
    injection H as <-. unfold allCards. simpl. rewrite Hd.
    rewrite <- (take_drop_middle (playerHands g) (activeHandIndex g) hand Hh) at 3.
    rewrite !map_app, !concat_app. simpl. rewrite Hc. solve_Permutation.
Qed.

(** ** Starting a round, in full *)

Lemma last_four {A} (l : list A) :
  4 ≤ length l → ∃ rest w x y z, l = rest ++ [w; x; y; z].
Proof.
  intros Hl.
  destruct (list_end l) as [-> | (l1 & z & ->)]; [simpl in Hl; lia|].
  rewrite length_app in Hl. simpl in Hl.
  destruct (list_end l1) as [-> | (l2 & y & ->)]; [simpl in Hl; lia|].
  rewrite length_app in Hl. simpl in Hl.
  destruct (list_end l2) as [-> | (l3 & x & ->)]; [simpl in Hl; lia|].
  rewrite length_app in Hl. simpl in Hl.
  destruct (list_end l3) as [-> | (l4 & w & ->)]; [simpl in Hl; lia|].
  exists l4, w, x, y, z. by rewrite <- !app_assoc.
Qed.


Lemma shoeForRound_length rnd g :
  (1 <= numberOfDecks (options g))%Z → 18 ≤ length (shoeForRound rnd g).
Proof.
  intros Hn. unfold shoeForRound, belowReshuffleThreshold.
  destruct (Z.ltb_spec (3 * Z.of_nat (length (deck g)))
                       (numberOfDecks (options g) * 52)) as [Hlt|Hge].
  - rewrite createNewDeck_length. lia.
  - lia.
Qed.

Lemma startRound_started rnd g b rest d2 d1 p2 p1 :
  phase g = BETTING ∨ phase g = ROUND_OVER → (0 < b)%Z →
  shoeForRound rnd g = rest ++ [d2; d1; p2; p1] →
  startRound rnd b g =
  if (value (getHandValue [p1; p2]) =? 21)%Z
  then resolveDealerTurn
         (mkGame rest [mkHand [p1; p2] b BLACKJACK PENDING] [d1; d2] 0
                 PLAYER_TURN (options g))
  else (Ret tt,
        mkGame rest [mkHand [p1; p2] b ACTIVE PENDING] [d1; d2] 0
               PLAYER_TURN (options g)).
Proof.
  intros Hp Hb Hshoe. unfold startRound.
  unfold bind at 1, gets at 1.
  assert (negb (bool_decide (phase g = BETTING))
          && negb (bool_decide (phase g = ROUND_OVER)) = false) as ->
    by (by destruct Hp as [-> | ->]).
  assert ((b <=? 0)%Z = false) as -> by (apply Z.leb_gt; lia).
  unfold bind at 1, gets at 1. simpl.
  set (g0 := set_deck (shoeForRound rnd g) g).
  assert ((if belowReshuffleThreshold g
           then modify (set_deck (createNewDeck rnd (options g)))
           else ret tt) g = (Ret tt, g0)) as Hre.
  { unfold g0, shoeForRound. destruct (belowReshuffleThreshold g); [reflexivity|].
    by destruct g. }
  rewrite (bind_Ret _ _ _ _ _ Hre).
  erewrite bind_Ret
    by (apply (dealCard_top _ p1 (rest ++ [d2; d1; p2])); simpl;
        rewrite Hshoe, <- app_assoc; reflexivity).
  erewrite bind_Ret
    by (apply (dealCard_top _ p2 (rest ++ [d2; d1])); simpl;
        rewrite <- app_assoc; reflexivity).
  unfold bind at 1, modify at 1.
  erewrite bind_Ret
    by (apply (dealCard_top _ d1 (rest ++ [d2])); simpl;
        rewrite <- app_assoc; reflexivity).
  erewrite bind_Ret by (apply (dealCard_top _ d2 rest); reflexivity).
  unfold bind at 1, modify at 1. unfold bind at 1, modify at 1.
  unfold bind at 1, modify at 1.
  erewrite bind_Ret by (apply readHand_Some; reflexivity).
  simpl. destruct (value (getHandValue [p1; p2]) =? 21)%Z; [|reflexivity].
  erewrite bind_Ret by (apply modifyHand_Some; reflexivity).
  reflexivity.
Qed.

(** X17: with at least one deck configured, a [startRound] in BETTING or
    ROUND_OVER with a positive bet always deals: the last four cards of the
    shoe go, in this order, two to the player and two to the dealer.  The
    single player hand carries the bet.  Unless the player's two cards
    total 21, the call returns in PLAYER_TURN with an ACTIVE hand and a
    two-card dealer hand; if they do, the hand is BLACKJACK and the
    player's turn is skipped. *)
Theorem startRound_deals (rnd : nat → nat) (g : BlackjackGame) (b : Z) :
  phase g = BETTING ∨ phase g = ROUND_OVER → (0 < b)%Z →
  (1 <= numberOfDecks (options g))%Z →
  ∃ rest d2 d1 p2 p1 o g' hand,
    shoeForRound rnd g = rest ++ [d2; d1; p2; p1]
    ∧ startRound rnd b g = (o, g')
    ∧ playerHands g' = [hand]
    ∧ cards hand = [p1; p2] ∧ bet hand = b
    ∧ take 2 (dealerHand g') = [d1; d2]
    ∧ activeHandIndex g' = 0
    ∧ options g' = options g
    ∧ (value (getHandValue [p1; p2]) ≠ 21%Z →
       o = Ret tt ∧ phase g' = PLAYER_TURN
       ∧ status hand = ACTIVE ∧ result hand = PENDING
       ∧ dealerHand g' = [d1; d2] ∧ deck g' = rest)
    ∧ (value (getHandValue [p1; p2]) = 21%Z →
       status hand = BLACKJACK ∧ phase g' ≠ PLAYER_TURN).
Proof.
  intros Hp Hb Hn.
  destruct (last_four (shoeForRound rnd g)) as (rest & d2 & d1 & p2 & p1 & Hshoe);
    [pose proof (shoeForRound_length rnd g Hn); lia|].
  exists rest, d2, d1, p2, p1.
  rewrite (startRound_started rnd g b rest d2 d1 p2 p1 Hp Hb Hshoe).
  destruct (Z.eqb_spec (value (getHandValue [p1; p2])) 21) as [H21|H21].
  - destruct (resolveDealerTurn _) as [o g'] eqn:Hres.
    pose proof (resolveDealerTurn_frame _ _ _ Hres)
      as (Ho & Hi & Hc & Hbt & Hs & Hph & _).
    apply resolveDealerTurn_spec in Hres as (drawn & _ & Hdl & _).
    simpl in *.
    destruct (playerHands g') as [|hand [|h2 l]] eqn:Hhands; try discriminate.
    simpl in Hc, Hbt, Hs. injection Hc as Hc. injection Hbt as Hbt.
    injection Hs as Hs.
    exists o, g', hand. rewrite Hdl.
    do 8 (split; [done|]). split; [intros Hne; by destruct Hne|].
    intros _. by split.
  - eexists _, _, _.
    do 8 (split; [done|]). split; [intros _; by repeat split|].
    intros He. by destruct H21.
Qed.

(** X18: after [resetGame()], with at least one deck configured, a
    [startRound] with a positive bet deals from the shoe [resetGame] has
    just built, without shuffling again, and leaves 52 cards per deck minus
    four in it. *)
Theorem resetGame_then_startRound (rnd rnd' : nat → nat) (g : BlackjackGame)
  (b : Z) :
  (1 <= numberOfDecks (options g))%Z → (0 < b)%Z →
  ∃ g0 rest d2 d1 p2 p1,
    resetGame rnd g = (Ret tt, g0)
    ∧ deck g0 = rest ++ [d2; d1; p2; p1]
    ∧ length rest = 52 * Z.to_nat (numberOfDecks (options g)) - 4
    ∧ startRound rnd' b g0 =
      if (value (getHandValue [p1; p2]) =? 21)%Z
      then resolveDealerTurn
             (mkGame rest [mkHand [p1; p2] b BLACKJACK PENDING] [d1; d2] 0
                     PLAYER_TURN (options g))
      else (Ret tt,
            mkGame rest [mkHand [p1; p2] b ACTIVE PENDING] [d1; d2] 0
                   PLAYER_TURN (options g)).
Proof.
  intros Hn Hb. rewrite resetGame_fields.
  set (g0 := mkGame (createNewDeck rnd (options g)) [] [] 0 BETTING (options g)).
  pose proof (createNewDeck_length rnd (options g)) as Hlen.
  assert (shoeForRound rnd' g0 = createNewDeck rnd (options g)) as Hshoe.
  { unfold shoeForRound, belowReshuffleThreshold. simpl. rewrite Hlen.
    destruct (Z.ltb_spec (3 * Z.of_nat (52 * Z.to_nat (numberOfDecks (options g))))
                (numberOfDecks (options g) * 52)); [lia|reflexivity]. }
  destruct (last_four (createNewDeck rnd (options g)))
    as (rest & d2 & d1 & p2 & p1 & Hd); [lia|].
  exists g0, rest, d2, d1, p2, p1.
  split; [reflexivity|]. split; [exact Hd|]. split.
  - rewrite Hd, length_app in Hlen. simpl in Hlen. lia.
  - apply (startRound_started rnd' g0 b rest d2 d1 p2 p1);
      [by left | done | by rewrite Hshoe].
Qed.

(** ** More invariants of the reachable states *)













(** X21: in every reachable state [getAvailableActions()] returns, without
    a duplicate, and returns the empty list exactly outside
    PLAYER_TURN. *)
Theorem reachable_getAvailableActions_returns (g : BlackjackGame) :
  reachable g →
  ∃ actions, getAvailableActions g = Ret actions
             ∧ (actions = [] ↔ phase g ≠ PLAYER_TURN)
             ∧ NoDup actions.
Proof.
  intros Hr. pose proof (reachable_activeHandDefined g Hr) as Hi.
  destruct (decide (phase g = PLAYER_TURN)) as [Hp|Hp].
  - destruct (lookup_lt_is_Some_2 _ _ (Hi Hp)) as [hand Hh].
    rewrite (getAvailableActions_player_turn g hand Hp Hh).
    eexists. split; [reflexivity|].
    split; [split; [by repeat case_match|done]|].
    repeat case_match; apply (bool_decide_unpack _); vm_compute; exact I.
  - rewrite (getAvailableActions_other_phase g Hp). exists [].
    split; [done|]. split; [done|constructor].
Qed.

(** ** The properties above at the example states *)

Lemma getHandValue_best_total_witness :
  value (getHandValue [mkCard 1 0; mkCard 13 0; mkCard 5 1]) = 16%Z.
Proof.
  rewrite (proj1 (getHandValue_best_total
                    [mkCard 1 0; mkCard 13 0; mkCard 5 1]
                    ltac:(by_evaluation))).
  reflexivity.
Defined.

Lemma resolveDealerTurn_returns_witness :
  phase (resolveDealerTurn example_finished).2 = ROUND_OVER.
Proof.
  destruct (resolveDealerTurn_returns example_finished
              (resolveDealerTurn example_finished).2)
    as (drawn & _ & _ & Hp & _); [vm_compute; reflexivity | exact Hp].
Defined.

Lemma resolveDealerTurn_throws_witness :
  phase (resolveDealerTurn example_empty_shoe).2 = DEALER_TURN.
Proof.
  destruct (resolveDealerTurn_throws example_empty_shoe
              (resolveDealerTurn example_empty_shoe).2 (Error "Deck is empty."))
    as (_ & _ & _ & _ & Hp & _); [vm_compute; reflexivity | exact Hp].
Defined.

Lemma resolveDealerTurn_completes_witness :
  ∃ g', resolveDealerTurn example_started = (Ret tt, g').
Proof.
  apply resolveDealerTurn_completes.
  - by_evaluation.
  - by_evaluation.
  - vm_compute. lia.
Defined.

Lemma dealer_options_no_effect_witness :
  (resolveDealerTurn example_finished).1
  = (resolveDealerTurn example_finished_stand17).1.
Proof.
  apply (dealer_options_no_effect example_finished example_finished_stand17).
  - repeat split.
  - by_evaluation.
  - by_evaluation.
Defined.

Lemma hit_deals_one_card_witness :
  ∃ o g' hand',
    hit example_three_cards = (o, g')
    ∧ cards hand' = [mkCard 5 0; mkCard 6 1; mkCard 2 2; mkCard 8 1].
Proof.
  destruct (hit_deals_one_card example_three_cards
              (mkHand [mkCard 5 0; mkCard 6 1; mkCard 2 2] 10 ACTIVE PENDING)
              (mkCard 8 1) [mkCard 4 0] eq_refl eq_refl eq_refl)
    as (o & g' & hand' & H & _ & Hc & _).
  exists o, g', hand'. split; [exact H | exact Hc].
Defined.

Lemma stand_spec_witness :
  ∃ o g' hand', stand example_three_cards = (o, g') ∧ status hand' = STOOD.
Proof.
  destruct (stand_spec example_three_cards
              (mkHand [mkCard 5 0; mkCard 6 1; mkCard 2 2] 10 ACTIVE PENDING)
              eq_refl eq_refl)
    as (o & g' & hand' & H & _ & _ & _ & Hs & _).
  exists o, g', hand'. split; [exact H | exact Hs].
Defined.

Lemma doubleDown_spec_witness :
  ∃ o g' hand', doubleDown example_pair = (o, g') ∧ bet hand' = 20%Z.
Proof.
  destruct (doubleDown_spec example_pair
              (mkHand [mkCard 13 0; mkCard 10 1] 10 ACTIVE PENDING)
              (mkCard 1 3) [mkCard 3 0; mkCard 5 1; mkCard 9 2]
              eq_refl eq_refl eq_refl eq_refl)
    as (o & g' & hand' & H & _ & _ & Hb & _).
  exists o, g', hand'. split; [exact H | exact Hb].
Defined.

Lemma actions_on_empty_deck_witness :
  hit example_empty_shoe = (Throw (Error "Deck is empty."), example_empty_shoe).
Proof.
  apply (actions_on_empty_deck example_empty_shoe
           (mkHand [mkCard 8 0; mkCard 8 1] 10 ACTIVE PENDING)
           eq_refl eq_refl eq_refl).
Defined.

Lemma actions_frame_witness :
  activeHandIndex example_three_cards
  ≤ activeHandIndex (hit example_three_cards).2.
Proof.
  destruct (actions_frame example_three_cards (hit example_three_cards).2
              (hit example_three_cards).1) as (_ & Hi & _).
  - left. apply surjective_pairing.
  - exact Hi.
Defined.

Lemma cards_conserved_witness :
  allCards (stand example_three_cards).2 ≡ₚ allCards example_three_cards.
Proof.
  apply (cards_conserved example_three_cards (stand example_three_cards).2
           (stand example_three_cards).1).
  right; left. apply surjective_pairing.
Defined.

Lemma startRound_deals_witness :
  ∃ o g', startRound (fun _ => 0) 10 example_new = (o, g')
          ∧ activeHandIndex g' = 0.
Proof.
  destruct (startRound_deals (fun _ => 0) example_new 10)
    as (rest & d2 & d1 & p2 & p1 & o & g' & hand & _ & H & _ & _ & _ & _ & Hi & _).
  - left. vm_compute. reflexivity.
  - reflexivity.
  - vm_compute. discriminate.
  - exists o, g'. split; [exact H | exact Hi].
Defined.

Lemma resetGame_then_startRound_witness :
  ∃ g0, resetGame (fun k => k) example_betting = (Ret tt, g0)
        ∧ length (deck g0) = 208.
Proof.
  destruct (resetGame_then_startRound (fun k => k) (fun _ => 0)
              example_betting 10)
    as (g0 & rest & d2 & d1 & p2 & p1 & Hr & Hd & Hl & _).
  - discriminate.
  - reflexivity.
  - exists g0. split; [exact Hr|]. rewrite Hd, length_app, Hl. reflexivity.
Defined.

Lemma reachable_getAvailableActions_returns_witness :
  ∃ actions, getAvailableActions example_started = Ret actions.
Proof.
  destruct (reachable_getAvailableActions_returns example_started
              example_started_reachable) as (actions & H & _).
  exists actions. exact H.
Defined.



Lemma snapshot_hands_not_shared_witness :
  Refs.viewGame
    (Refs.writeRank 5 11 (example_store ++ [mkCard 10 2; mkCard 8 3]))
    example_refs
  = Refs.viewGame (example_store ++ [mkCard 10 2; mkCard 8 3]) example_refs.
Proof.
  apply (snapshot_hands_not_shared example_store example_refs
           (Refs.mkSnapshotRef 1 [Refs.mkHandRef [5; 6] 10 STOOD PLAYER_WINS]
              [0; 1] 0 ROUND_OVER 11 [])
           (example_store ++ [mkCard 10 2; mkCard 8 3])
           ltac:(by_evaluation) eq_refl
           (Refs.mkHandRef [5; 6] 10 STOOD PLAYER_WINS) 5).
  - apply (list_elem_of_lookup_2 _ 0). reflexivity.
  - by_evaluation.
Defined.
